(** * Double-track planar vehicle model: symbolic dynamics and NLP stage constraints

    A shallow embedding of
    [vehicle_dynamics_models/double_track_planar_model/src/double_track_planar_model.cpp].

    The program manipulates CasADi symbolic expressions: [compile_dynamics]
    builds the expressions of the state derivative and of the tyre forces,
    [forward_dynamics] substitutes into them, and [add_nlp_constraints]
    appends comparison expressions to an optimisation problem.  The data of
    the embedding is therefore the expression itself ([MX]); a [casadi::Function]
    is the function from argument expressions to result expressions.

    The C++ type [double] is read as [R]: constants are folded and expressions
    are evaluated in exact real arithmetic.  Rounding, NaN and infinities of
    IEEE arithmetic are not represented; division by zero, which they would
    signal, is spoken of through the denominators themselves.  Expressions
    are kept as the source writes them: the simplifications CasADi applies
    while it builds a node (a product with one, a sum with zero) do not
    change a value and are left out. *)

From Stdlib Require Import Reals Lra.
From stdpp Require Import gmap strings list.

Open Scope string_scope.

(** ** Symbolic expressions *)

(** A scalar expression node.  A symbolic primitive carries its display name
    and the identity of its node; CasADi tells two primitives apart by the
    node, never by the name. *)
Inductive MX : Type :=
| Const (c : R)
| Sym (name : string) (id : nat)
| Neg (a : MX)
| Add (a b : MX)
| Sub (a b : MX)
| Mul (a b : MX)
| Div (a b : MX)
| PowN (a : MX) (n : nat)
| Sin (a : MX)
| Cos (a : MX)
| Atan (a : MX).

Declare Scope mx_scope.
Delimit Scope mx_scope with mx.
Bind Scope mx_scope with MX.
Notation "a + b" := (Add a b) : mx_scope.
Notation "a - b" := (Sub a b) : mx_scope.
Notation "a * b" := (Mul a b) : mx_scope.
Notation "a / b" := (Div a b) : mx_scope.
Notation "- a" := (Neg a) : mx_scope.

(** A dense column (or row) of scalar expressions; a scalar is a matrix of
    length one.  Orientation is not recorded: [T()] is the identity on it. *)
Abbreviation Mat := (list MX).

(** Numeric value of an expression under an assignment of the primitives. *)
Fixpoint eval (env : nat -> R) (e : MX) : R :=
  match e with
  | Const c => c
  | Sym _ i => env i
  | Neg a => (- eval env a)%R
  | Add a b => (eval env a + eval env b)%R
  | Sub a b => (eval env a - eval env b)%R
  | Mul a b => (eval env a * eval env b)%R
  | Div a b => (eval env a / eval env b)%R
  | PowN a n => (eval env a ^ n)%R
  | Sin a => sin (eval env a)
  | Cos a => cos (eval env a)
  | Atan a => atan (eval env a)
  end.

(** [occurs i e]: the primitive with node [i] appears in [e]. *)
Fixpoint occurs (i : nat) (e : MX) : bool :=
  match e with
  | Const _ => false
  | Sym _ j => Nat.eqb i j
  | Neg a | PowN a _ | Sin a | Cos a | Atan a => occurs i a
  | Add a b | Sub a b | Mul a b | Div a b => occurs i a || occurs i b
  end.

(** Replace the primitive with node [i] by [d], in one pass. *)
Fixpoint subst (i : nat) (d : MX) (e : MX) : MX :=
  match e with
  | Const c => Const c
  | Sym nm j => if Nat.eqb i j then d else Sym nm j
  | Neg a => Neg (subst i d a)
  | Add a b => Add (subst i d a) (subst i d b)
  | Sub a b => Sub (subst i d a) (subst i d b)
  | Mul a b => Mul (subst i d a) (subst i d b)
  | Div a b => Div (subst i d a) (subst i d b)
  | PowN a n => PowN (subst i d a) n
  | Sin a => Sin (subst i d a)
  | Cos a => Cos (subst i d a)
  | Atan a => Atan (subst i d a)
  end.

(** [casadi::substitute(ex, v, vdef)]: [v] has to be a symbolic primitive and
    [vdef] of its shape, otherwise CasADi raises. *)
Definition substitute (ex v vdef : Mat) : option Mat :=
  match v, vdef with
  | [Sym _ i], [d] => Some (map (subst i d) ex)
  | _, _ => None
  end.

(** ** Matrix-valued operations

    An operation on [MX] values either yields a matrix or raises (dimension
    mismatch, index out of range); [option Mat] carries the exception. *)
Abbreviation MXr := (option Mat).

Definition ew1 (f : MX -> MX) (a : MXr) : MXr := map f <$> a.

(** Elementwise binary operation; a scalar operand is broadcast. *)
Definition ew2 (f : MX -> MX -> MX) (a b : MXr) : MXr :=
  a ← a; b ← b;
  if (length a =? length b)%nat then Some (zip_with f a b)
  else match a, b with
       | [s], _ => Some (map (f s) b)
       | _, [s] => Some (map (fun x => f x s) a)
       | _, _ => None
       end.

(** [m(i)]: the one-by-one slice at index [i]. *)
Definition at_ (m : MXr) (i : nat) : MXr := m ← m; e ← m !! i; Some [e].

(** [m(i) = v] on a copy [m]. *)
Definition set_at (m : MXr) (i : nat) (v : MXr) : MXr :=
  m ← m; v ← v;
  match v with
  | [e] => if (i <? length m)%nat then Some (<[i := e]> m) else None
  | _ => None
  end.

(** A [double] (or [int]) literal used where an [MX] is expected. *)
Definition dbl (c : R) : MXr := Some [Const c].

Declare Scope mxr_scope.
Delimit Scope mxr_scope with mxr.
Notation "a + b" := (ew2 Add a b) : mxr_scope.
Notation "a - b" := (ew2 Sub a b) : mxr_scope.
Notation "a * b" := (ew2 Mul a b) : mxr_scope.
Notation "a / b" := (ew2 Div a b) : mxr_scope.
(** [m.T()]: orientation is not recorded, the entries stay in place. *)
Definition T (m : MXr) : MXr := m.
Definition pow (a : MXr) (n : nat) : MXr := ew1 (fun e => PowN e n) a.
Definition sin_ (a : MXr) : MXr := ew1 Sin a.
Definition cos_ (a : MXr) : MXr := ew1 Cos a.

(** ** [casadi::Function] *)

(** The shared node behind a function handle: the names and sizes of its
    inputs, the names of its outputs and the map from arguments to results. *)
Record FunctionInternal := {
  name_in : list string;
  size_in : list nat;
  name_out : list string;
  body : list Mat -> option (list Mat)
}.

(** A handle is null until a function is assigned to it. *)
Abbreviation Function := (option FunctionInternal).

(** Argument against declared size: equal length is taken as is, an empty
    matrix stands for zeros, a scalar is repeated, anything else raises. *)
Definition fit (n : nat) (a : Mat) : option Mat :=
  if (length a =? n)%nat then Some a
  else match a with
       | [] => Some (replicate n (Const 0))
       | [s] => Some (replicate n s)
       | _ => None
       end.

(** [f(args)], positional.  Calling a null handle does not return. *)
Definition call (f : Function) (args : list Mat) : option (list Mat) :=
  fi ← f;
  if (length args =? length (size_in fi))%nat then
    args ← mapM (fun '(n, a) => fit n a) (zip (size_in fi) args);
    body fi args
  else None.

Abbreviation MXDict := (gmap string Mat).

(** [f(dict)], by name: every input starts at its default, zero; each entry
    of the dictionary has to name an input; the results come back keyed by
    the output names. *)
Definition call_dict (f : Function) (arg : MXDict) : option MXDict :=
  fi ← f;
  if decide (map_Forall (fun k _ => k ∈ name_in fi) arg) then
    res ← call f (map (fun k => default [Const 0] (arg !! k)) (name_in fi));
    Some (list_to_map (zip (name_out fi) res))
  else None.

(** ** Configuration *)

(** Modelled from the spec: the configuration structs live in headers of
    [base_vehicle_model] and [double_track_planar_model] that are not among
    the sources.  The fields are the ones the source reads, each a [double],
    grouped as the source dereferences them. *)
Record ChassisConfig := {
  total_mass : R; moi : R; wheel_base : R; cg_ratio : R; cg_height : R;
  tw_f : R; tw_r : R; fr : R
}.
Record SteerConfig := { max_steer : R; max_steer_rate : R }.
Record PowertrainConfig := { kd : R }.
Record BrakeConfig := { bias : R }.
Record AeroConfig := {
  cl_f : R; cl_r : R; air_density : R; frontal_area : R; drag_coeff : R
}.
Record TyreConfig := {
  pacejka_b : R; pacejka_c : R; pacejka_e : R; pacejka_fz0 : R; pacejka_eps : R
}.
Record BaseVehicleModelConfig := {
  chassis_config : ChassisConfig;
  steer_config : SteerConfig;
  powertrain_config : PowertrainConfig;
  front_brake_config : BrakeConfig;
  aero_config : AeroConfig;
  front_tyre_config : TyreConfig;
  rear_tyre_config : TyreConfig
}.
Record DoubleTrackPlanarModelConfig := {
  mu : R; kroll_f : R; P_max : R; Fd_max : R; Fb_max : R; Td : R; Tb : R
}.

(** Modelled from the spec: [lmpc::utils::TyreIndex] is declared in
    [lmpc_utils/utils.hpp], not among the sources; the per-wheel vectors are
    ordered front-left, front-right, rear-left, rear-right. *)
Module TyreIndex.
Definition FL : nat := 0.
Definition FR : nat := 1.
Definition RL : nat := 2.
Definition RR : nat := 3.
End TyreIndex.

Definition GRAVITY : R := 9.8.

(** ** [compile_dynamics] *)

Section Dynamics.
Variable base : BaseVehicleModelConfig.
Variable config : DoubleTrackPlanarModelConfig.

Let kd_f := kd (powertrain_config base).
Let kb_f := bias (front_brake_config base).
Let m := total_mass (chassis_config base).
Let Jzz := moi (chassis_config base).
Let l := wheel_base (chassis_config base).
Let lf := (cg_ratio (chassis_config base) * l)%R.
Let lr := (l - lf)%R.
Let twf := tw_f (chassis_config base).
Let twr := tw_r (chassis_config base).
Let fr_ := fr (chassis_config base).
Let hcog := cg_height (chassis_config base).
Let kroll := kroll_f config.
Let clf := cl_f (aero_config base).
Let clr := cl_r (aero_config base).
Let rho := air_density (aero_config base).
Let A := frontal_area (aero_config base).
Let cd := drag_coeff (aero_config base).
Let mu_ := mu config.
Let Bf := pacejka_b (front_tyre_config base).
Let Cf := pacejka_c (front_tyre_config base).
Let Ef := pacejka_e (front_tyre_config base).
Let Fz0_f := pacejka_fz0 (front_tyre_config base).
Let eps_f := pacejka_eps (front_tyre_config base).
Let Br := pacejka_b (rear_tyre_config base).
Let Cr := pacejka_c (rear_tyre_config base).
Let Er := pacejka_e (rear_tyre_config base).
Let Fz0_r := pacejka_fz0 (rear_tyre_config base).
Let eps_r := pacejka_eps (rear_tyre_config base).

(** The expressions are those of the source, in its order and with its
    grouping; a product or quotient of [double]s is folded into one constant
    before it meets a symbolic operand, as C++ evaluates it. *)
Section Expressions.
Variables phi omega beta v fd fb delta gamma_y : MX.
Open Scope mx_scope.

Definition v_sq := PowN v 2.

(* longitudinal tyre force Fx (eq. 4a, 4b) *)
Definition Fx_f :=
  Const (0.5 * kd_f) * fd + Const (0.5 * kb_f) * fb
  - Const (0.5 * fr_ * m * GRAVITY * lr / l).
Definition Fx_fl := Fx_f.
Definition Fx_fr := Fx_f.
Definition Fx_r :=
  Const (0.5 * (1 - kd_f)) * fd + Const (0.5 * (1.0 - kb_f)) * fb
  - Const (0.5 * fr_ * m * GRAVITY * lf / l).
Definition Fx_rl := Fx_r.
Definition Fx_rr := Fx_r.

(* longitudinal acceleration (eq. 9) *)
Definition ax :=
  (fd + fb - Const (0.5 * cd * A) * v_sq - Const (fr_ * m * GRAVITY)) / Const m.

(* vertical tyre force Fz (eq. 7a, 7b) *)
Definition Fz_f :=
  Const (0.5 * m * GRAVITY * lr / (lf + lr)) - Const (0.5 * hcog / (lf + lr) * m) * ax
  + Const (0.25 * clf * rho * A) * v_sq.
Definition Fz_fl := Fz_f - Const kroll * gamma_y.
Definition Fz_fr := Fz_f + Const kroll * gamma_y.
Definition Fz_r :=
  Const (0.5 * m * GRAVITY * lr / (lf + lr)) + Const (0.5 * hcog / (lf + lr) * m) * ax
  + Const (0.25 * clr * rho * A) * v_sq.
Definition Fz_rl := Fz_r - Const (1.0 - kroll) * gamma_y.
Definition Fz_rr := Fz_r + Const (1.0 - kroll) * gamma_y.

(* tyre sideslip angles alpha (eq. 6a, 6b): numerators and denominators *)
Definition slip_num_f := Const lf * omega + v * Sin beta.
Definition slip_num_r := Const lr * omega - v * Sin beta.
Definition slip_den_fl := v * Cos beta - Const (0.5 * twf) * omega.
Definition slip_den_fr := v * Cos beta + Const (0.5 * twf) * omega.
Definition slip_den_rl := v * Cos beta - Const (0.5 * twr) * omega.
Definition slip_den_rr := v * Cos beta + Const (0.5 * twr) * omega.
Definition a_fl := delta - Atan (slip_num_f / slip_den_fl).
Definition a_fr := delta - Atan (slip_num_f / slip_den_fr).
Definition a_rl := Atan (slip_num_r / slip_den_rl).
Definition a_rr := Atan (slip_num_r / slip_den_rr).

(* lateral tyre force Fy (eq. 5) *)
Definition magic (B C E : R) (a : MX) : MX :=
  Sin (Const C * Atan (Const B * a - Const E * (Const B * a - Atan (Const B * a)))).
Definition Fy_fl :=
  Const mu_ * Fz_fl * (Const 1.0 + Const eps_f * Fz_fl / Const Fz0_f) * magic Bf Cf Ef a_fl.
Definition Fy_fr :=
  Const mu_ * Fz_fr * (Const 1.0 + Const eps_f * Fz_fr / Const Fz0_f) * magic Bf Cf Ef a_fr.
Definition Fy_rl :=
  Const mu_ * Fz_rl * (Const 1.0 + Const eps_r * Fz_rl / Const Fz0_r) * magic Br Cr Er a_rl.
Definition Fy_rr :=
  Const mu_ * Fz_rr * (Const 1.0 + Const eps_r * Fz_rr / Const Fz0_r) * magic Br Cr Er a_rr.

(* dynamics (eq. 3a, 3b, 3c) *)
Definition v_dot :=
  Const (1.0 / m) *
  ((Fx_rl + Fx_rr) * Cos beta + (Fx_fl + Fx_fr) * Cos (delta - beta)
   + (Fy_rl + Fy_rr) * Sin beta - (Fy_fl + Fy_fr) * Sin (delta - beta)
   - Const (0.5 * cd * rho * A) * v_sq * Cos beta).
Definition beta_dot_den := Const m * v.
Definition beta_dot :=
  - omega + Const 1.0 / beta_dot_den *
  (- (Fx_rl + Fx_rr) * Sin beta + (Fx_fl + Fx_fr) * Sin (delta - beta)
   + (Fy_rl + Fy_rr) * Cos beta + (Fy_fl + Fy_fr) * Cos (delta - beta)
   + Const (0.5 * cd * rho * A) * v_sq * Sin beta).
Definition omega_dot :=
  Const (1.0 / Jzz) *
  ((Fx_rr - Fx_rl) * Const twr / Const 2 - (Fy_rl + Fy_rr) * Const lr
   + ((Fx_fr - Fx_fl) * Cos delta + (Fy_fl - Fy_fr) * Sin delta) * Const twf / Const 2.0
   + ((Fy_fl + Fy_fr) * Cos delta + (Fx_fl + Fx_fr) * Sin delta) * Const lf).

(* cg position *)
Definition vx := v * Cos phi.
Definition vy := v * Sin phi.

Definition x_dot : Mat := [vx; vy; omega; omega_dot; beta_dot; v_dot].
Definition Fx_ij : Mat := [Fx_fl; Fx_fr; Fx_rl; Fx_rr].
Definition Fy_ij : Mat := [Fy_fl; Fy_fr; Fy_rl; Fy_rr].
Definition Fz_ij : Mat := [Fz_fl; Fz_fr; Fz_rl; Fz_rr].
End Expressions.

(** The function [{x, u, gamma_y} -> {x_dot, Fx_ij, Fy_ij, Fz_ij}] over the
    symbolic inputs [x] (6), [u] (3) and [gamma_y] (1). *)
Definition double_track_planar_model : FunctionInternal := {|
  name_in := ["x"; "u"; "gamma_y"];
  size_in := [6; 3; 1];
  name_out := ["x_dot"; "Fx_ij"; "Fy_ij"; "Fz_ij"];
  body := fun args =>
    match args with
    | [ [_; _; phi; omega; beta; v]; [fd; fb; delta]; [gamma_y] ] =>
      Some [ x_dot phi omega beta v fd fb delta gamma_y;
             Fx_ij fd fb;
             Fy_ij omega beta v fd fb delta gamma_y;
             Fz_ij v fd fb gamma_y ]
    | _ => None
    end
|}.
End Dynamics.

(** ** The model object *)

(** The two configurations and the two function handles of the class.
    [lateral_load_transfer_] is declared in the class header; in the sources
    its only assignment is the commented-out root finder at the end of
    [compile_dynamics]. *)
Record DoubleTrackPlanarModel := {
  base_config_ : BaseVehicleModelConfig;
  config_ : DoubleTrackPlanarModelConfig;
  dynamics_ : Function;
  lateral_load_transfer_ : Function
}.

Definition get_base_config (this : DoubleTrackPlanarModel) := base_config_ this.
Definition get_config (this : DoubleTrackPlanarModel) := config_ this.
Definition nx (this : DoubleTrackPlanarModel) : nat := 6.
Definition nu (this : DoubleTrackPlanarModel) : nat := 3.

(** Assigns [dynamics_] and nothing else. *)
Definition compile_dynamics (this : DoubleTrackPlanarModel) : DoubleTrackPlanarModel :=
  {| base_config_ := base_config_ this;
     config_ := config_ this;
     dynamics_ := Some (double_track_planar_model (get_base_config this) (get_config this));
     lateral_load_transfer_ := lateral_load_transfer_ this |}.

(** The constructor: members from the initialiser list, both function
    handles default-constructed (null), then [compile_dynamics]. *)
Definition DoubleTrackPlanarModel_ctor
    (base_config : BaseVehicleModelConfig) (config : DoubleTrackPlanarModelConfig)
    : DoubleTrackPlanarModel :=
  compile_dynamics
    {| base_config_ := base_config; config_ := config;
       dynamics_ := None; lateral_load_transfer_ := None |}.

(** ** [forward_dynamics] *)

(** [casadi::MX::sym(name, 1)] allocates a new node: the caller passes the
    next unused node identity and gets the advanced one back. *)
Definition MX_sym (name : string) (node : nat) : Mat * nat := ([Sym name node], S node).

(** Outcome of a member call: the object after the call, the value handed
    back ([None] when the call raised) and the next unused node identity. *)
Record Run (A : Type) := {
  this_after : DoubleTrackPlanarModel;
  returned : option A;
  next_node : nat
}.
Arguments this_after {A} _.
Arguments returned {A} _.
Arguments next_node {A} _.

(** The [for] loop over a dictionary that rewrites every value in place. *)
Definition dict_mapM (f : Mat -> option Mat) (d : MXDict) : option MXDict :=
  if decide (map_Forall (fun _ v => is_Some (f v)) d) then Some (omap f d) else None.

Definition forward_dynamics (this : DoubleTrackPlanarModel) (in_ : MXDict) (node : nat)
    : Run MXDict :=
  let '(gamma_y, node) := MX_sym "gamma_y" node in
  let dyn_in := <["gamma_y" := gamma_y]> in_ in
  {| this_after := this;
     returned :=
       out ← call_dict (dynamics_ this) dyn_in;
       Fx_ij ← out !! "Fx_ij";
       Fy_ij ← out !! "Fy_ij";
       gamma_y_solve ← call (lateral_load_transfer_ this) [[Const 0.0]];
       gamma_y_solve0 ← gamma_y_solve !! 0%nat;
       out ← dict_mapM (fun var => substitute var gamma_y gamma_y_solve0) out;
       Some (<["gamma_y" := gamma_y_solve0]> out);
     next_node := node |}.

(** ** The optimisation problem *)

(** A comparison expression handed to [Opti::subject_to]. *)
Inductive Constraint : Type :=
| CEq (lhs rhs : Mat)
| CLe (lhs rhs : Mat)
| CGe (lhs rhs : Mat)
| CBounded (lb e ub : Mat).

(** The constraints of the problem, in the order they were added. *)
Abbreviation Opti := (list Constraint).

Definition conforms (a b : Mat) : bool :=
  (length a =? length b)%nat || (length a =? 1)%nat || (length b =? 1)%nat.

(** A comparison is elementwise, with the same broadcasting as arithmetic. *)
Definition cmp (mk : Mat -> Mat -> Constraint) (a b : MXr) : option Constraint :=
  a ← a; b ← b; if conforms a b then Some (mk a b) else None.
Definition bounded (lb e ub : MXr) : option Constraint :=
  lb ← lb; e ← e; ub ← ub;
  if conforms lb e && conforms e ub then Some (CBounded lb e ub) else None.

Notation "a == b" := (cmp CEq a b) (at level 70, no associativity) : mxr_scope.
Notation "a <= b" := (cmp CLe a b) : mxr_scope.
Notation "a >= b" := (cmp CGe a b) : mxr_scope.

Definition subject_to (opti : Opti) (c : option Constraint) : option Opti :=
  c ← c; Some (opti ++ [c])%list.

(** ** [add_nlp_constraints] *)

Section Constraints.
(** [lmpc::utils::align_yaw] comes from [lmpc_utils/utils.hpp], which is not
    among the sources: the constraints are built for whatever it returns. *)
Variable align_yaw : MX -> MX -> MX.

Definition dynamics_call (this : DoubleTrackPlanarModel) (x u gamma_y : MXr)
    : option MXDict :=
  x ← x; u ← u; gamma_y ← gamma_y;
  call_dict (dynamics_ this) (<["x" := x]> (<["u" := u]> {["gamma_y" := gamma_y]})).

(** The problem after the stage's constraints have been appended, or [None]
    when a lookup, an index or an operation raised on the way. *)
Definition add_nlp_constraints (this : DoubleTrackPlanarModel) (opti : Opti) (in_ : MXDict)
    : option Opti :=
  let x : MXr := in_ !! "x" in
  let u : MXr := in_ !! "u" in
  let gamma_y : MXr := in_ !! "gamma_y" in
  let xip1 : MXr := in_ !! "xip1" in
  let uip1 : MXr := in_ !! "uip1" in
  let t : MXr := in_ !! "t" in

  let v := at_ x 5 in
  let fd := at_ u 0 in
  let fb := at_ u 1 in
  let delta := at_ u 2 in

  let twf := tw_f (chassis_config (get_base_config this)) in
  let twr := tw_r (chassis_config (get_base_config this)) in
  let delta_max := max_steer (steer_config (get_base_config this)) in
  let hcog := cg_height (chassis_config (get_base_config this)) in
  let mu := mu (get_config this) in
  let P_max := P_max (get_config this) in
  let Fd_max := Fd_max (get_config this) in
  let Fb_max := Fb_max (get_config this) in
  let Td := Td (get_config this) in
  let Tb := Tb (get_config this) in
  let Tdelta := (max_steer (steer_config (get_base_config this)) /
                 max_steer_rate (steer_config (get_base_config this)))%R in

  (* dynamics constraint *)
  let xip1_temp := xip1 in
  let xip1_temp := set_at xip1_temp 2 (ew2 align_yaw (at_ xip1_temp 2) (at_ x 2)) in
  let out1 := dynamics_call this x u gamma_y in
  let f1 : MXr := out1 ≫= (.!! "x_dot") in
  let out2 := dynamics_call this xip1_temp u gamma_y in
  let f2 : MXr := out2 ≫= (.!! "x_dot") in
  let xm := (dbl 0.5 * (x + xip1_temp) + (t / dbl 8.0) * (T f1 - T f2))%mxr in
  let outm := dynamics_call this xm u gamma_y in
  let fm : MXr := outm ≫= (.!! "x_dot") in
  opti ← subject_to opti
    (x + (t / dbl 6.0) * (T f1 + dbl 4 * T fm + T f2) - xip1_temp == dbl 0)%mxr;

  (* tyre constraints *)
  let Fx_ij : MXr := out1 ≫= (.!! "Fx_ij") in
  let Fy_ij : MXr := out1 ≫= (.!! "Fy_ij") in
  let Fz_ij : MXr := out1 ≫= (.!! "Fz_ij") in
  opti ← foldl
    (fun opti i =>
       opti ← opti;
       subject_to opti
         (pow (at_ Fx_ij i / (dbl mu * at_ Fz_ij i)) 2
          + pow (at_ Fy_ij i / (dbl mu * at_ Fz_ij i)) 2 <= dbl 1)%mxr)
    (Some opti) (seq 0 4);

  (* load transfer constraint *)
  opti ← subject_to opti
    (gamma_y ==
     dbl (hcog / (0.5 * (twf + twr))) *
     (at_ Fy_ij TyreIndex.RL + at_ Fy_ij TyreIndex.RR
      + (at_ Fx_ij TyreIndex.FL + at_ Fx_ij TyreIndex.FR) * sin_ delta
      + (at_ Fy_ij TyreIndex.FL + at_ Fy_ij TyreIndex.FR) * cos_ delta))%mxr;

  (* static actuator constraint *)
  opti ← subject_to opti (v * fd <= dbl P_max)%mxr;
  opti ← subject_to opti (v >= dbl 0.0)%mxr;
  opti ← subject_to opti (bounded (dbl 0.0) fd (dbl Fd_max));
  opti ← subject_to opti (bounded (dbl Fb_max) fb (dbl 0.0));
  opti ← subject_to opti (pow (fd * fb) 2 <= dbl 1.0)%mxr;
  opti ← subject_to opti (bounded (dbl (-1.0 * delta_max)) delta (dbl delta_max));

  (* dynamic actuator constraint *)
  opti ← subject_to opti ((at_ uip1 0 - fd) / t <= dbl (Fd_max / Td))%mxr;
  opti ← subject_to opti ((at_ uip1 1 - fb) / t >= dbl (Fb_max / Tb))%mxr;
  opti ← subject_to opti
    (bounded (dbl (- delta_max / Tdelta)) ((at_ uip1 2 - delta) / t)%mxr
       (dbl (delta_max / Tdelta)));
  Some opti.
End Constraints.

(** ** What the stage constraints are

    The expressions [add_nlp_constraints] hands to [subject_to], written out
    for a stage whose inputs have the expected shapes.  [stage_f] is the
    derivative part of [dynamics_] with the stage's control and load
    transfer held fixed. *)

Definition outputs base cfg (x u : Mat) (gamma_y : MX) : MXDict :=
  match x, u with
  | [_; _; phi; omega; beta; v], [fd; fb; delta] =>
    <["x_dot" := x_dot base cfg phi omega beta v fd fb delta gamma_y]>
    (<["Fx_ij" := Fx_ij base fd fb]>
    (<["Fy_ij" := Fy_ij base cfg omega beta v fd fb delta gamma_y]>
    (<["Fz_ij" := Fz_ij base cfg v fd fb gamma_y]> ∅)))
  | _, _ => ∅
  end.

Definition stage_f base cfg (u : Mat) (gamma_y : MX) (x : Mat) : Mat :=
  match x, u with
  | [_; _; phi; omega; beta; v], [fd; fb; delta] =>
    x_dot base cfg phi omega beta v fd fb delta gamma_y
  | _, _ => []
  end.

Definition el (m : Mat) (i : nat) : MX := nth i m (Const 0).

Definition vadd (a b : Mat) : Mat := zip_with Add a b.
Definition vsub (a b : Mat) : Mat := zip_with Sub a b.
Definition vscale (s : MX) (a : Mat) : Mat := map (Mul s) a.

Section StageConstraints.
Variable align_yaw : MX -> MX -> MX.
Variable base : BaseVehicleModelConfig.
Variable cfg : DoubleTrackPlanarModelConfig.
Variables x u : Mat.
Variable gamma_y : MX.
Variables xip1 uip1 : Mat.
Variable t : MX.

(** The next state with its yaw passed through [align_yaw]. *)
Definition aligned_xip1 : Mat := <[2 := align_yaw (el xip1 2) (el x 2)]> xip1.

Definition hs_midpoint (f : Mat -> Mat) (x x' : Mat) : Mat :=
  vadd (vscale (Const 0.5) (vadd x x')) (vscale (t / Const 8.0) (vsub (f x) (f x'))).
Definition hs_step (f : Mat -> Mat) (x x' : Mat) : Mat :=
  vadd x (vscale (t / Const 6.0)
            (vadd (vadd (f x) (vscale (Const 4) (f (hs_midpoint f x x')))) (f x'))).
Definition hs_defect (f : Mat -> Mat) (x x' : Mat) : Mat := vsub (hs_step f x x') x'.

Definition dynamics_constraint : Constraint :=
  CEq (hs_defect (stage_f base cfg u gamma_y) x aligned_xip1) [Const 0].

Definition stage_Fx : Mat := Fx_ij base (el u 0) (el u 1).
Definition stage_Fy : Mat :=
  Fy_ij base cfg (el x 3) (el x 4) (el x 5) (el u 0) (el u 1) (el u 2) gamma_y.
Definition stage_Fz : Mat := Fz_ij base cfg (el x 5) (el u 0) (el u 1) gamma_y.

Definition tyre_constraint (i : nat) : Constraint :=
  CLe [ (PowN (el stage_Fx i / (Const (mu cfg) * el stage_Fz i)) 2
         + PowN (el stage_Fy i / (Const (mu cfg) * el stage_Fz i)) 2)%mx ]
      [Const 1].

Definition load_transfer_rhs : MX :=
  (Const (cg_height (chassis_config base)
          / (0.5 * (tw_f (chassis_config base) + tw_r (chassis_config base)))) *
   (el stage_Fy TyreIndex.RL + el stage_Fy TyreIndex.RR
    + (el stage_Fx TyreIndex.FL + el stage_Fx TyreIndex.FR) * Sin (el u 2)
    + (el stage_Fy TyreIndex.FL + el stage_Fy TyreIndex.FR) * Cos (el u 2)))%mx.
Definition load_transfer_constraint : Constraint := CEq [gamma_y] [load_transfer_rhs].

Definition static_actuator_constraints : list Constraint :=
  let delta_max := max_steer (steer_config base) in
  [ CLe [(el x 5 * el u 0)%mx] [Const (P_max cfg)];
    CGe [el x 5] [Const 0.0];
    CBounded [Const 0.0] [el u 0] [Const (Fd_max cfg)];
    CBounded [Const (Fb_max cfg)] [el u 1] [Const 0.0];
    CLe [PowN (el u 0 * el u 1) 2] [Const 1.0];
    CBounded [Const (-1.0 * delta_max)] [el u 2] [Const delta_max] ].

Definition Tdelta : R :=
  max_steer (steer_config base) / max_steer_rate (steer_config base).

Definition dynamic_actuator_constraints : list Constraint :=
  let delta_max := max_steer (steer_config base) in
  [ CLe [((el uip1 0 - el u 0) / t)%mx] [Const (Fd_max cfg / Td cfg)];
    CGe [((el uip1 1 - el u 1) / t)%mx] [Const (Fb_max cfg / Tb cfg)];
    CBounded [Const (- delta_max / Tdelta)] [((el uip1 2 - el u 2) / t)%mx]
             [Const (delta_max / Tdelta)] ].

Definition stage_constraints : list Constraint :=
  (dynamics_constraint :: map tyre_constraint (seq 0 4)
   ++ load_transfer_constraint :: static_actuator_constraints
   ++ dynamic_actuator_constraints)%list.
End StageConstraints.

(** The dictionary of one stage, as the MPC problem builder passes it. *)
Definition stage_dict (x u gamma_y xip1 uip1 t : Mat) : MXDict :=
  <["x" := x]> (<["u" := u]> (<["gamma_y" := gamma_y]>
  (<["xip1" := xip1]> (<["uip1" := uip1]> {["t" := t]})))).

(** The shape of a friction-circle inequality: a sum of two squared
    quotients, each over a product, bounded from above. *)
Definition is_friction_circle (c : Constraint) : bool :=
  match c with
  | CLe [Add (PowN (Div _ (Mul _ _)) 2) (PowN (Div _ (Mul _ _)) 2)] [_] => true
  | _ => false
  end.

(** ** Solutions *)

(** Operand pairs of an elementwise comparison, a scalar being broadcast. *)
Definition broadcast (a b : Mat) : list (MX * MX) :=
  if (length a =? length b)%nat then zip a b
  else match a, b with
       | [s], _ => map (pair s) b
       | _, [s] => map (fun e => (e, s)) a
       | _, _ => []
       end.

(** [holds tol env c]: the assignment [env] satisfies [c] within the solver
    tolerance [tol]; [tol = 0] is exact satisfaction. *)
Definition holds (tol : R) (env : nat -> R) (c : Constraint) : Prop :=
  match c with
  | CEq l r => Forall (fun p => Rabs (eval env p.1 - eval env p.2) <= tol)%R (broadcast l r)
  | CLe l r => Forall (fun p => eval env p.1 <= eval env p.2 + tol)%R (broadcast l r)
  | CGe l r => Forall (fun p => eval env p.2 <= eval env p.1 + tol)%R (broadcast l r)
  | CBounded lb e ub =>
      Forall (fun p => eval env p.1 <= eval env p.2 + tol)%R (broadcast lb e)
      /\ Forall (fun p => eval env p.1 <= eval env p.2 + tol)%R (broadcast e ub)
  end.

(** An accepted solution of a problem satisfies each of its constraints. *)
Definition accepted (tol : R) (env : nat -> R) (opti : Opti) : Prop :=
  Forall (holds tol env) opti.

(** ** Hermite-Simpson collocation on numbers

    The scheme in the words of the specification, for a derivative function
    [f], a step [dt] and the two endpoint states. *)
Definition Rv_add (a b : list R) : list R := zip_with Rplus a b.
Definition Rv_sub (a b : list R) : list R := zip_with Rminus a b.
Definition Rv_scale (s : R) (a : list R) : list R := map (Rmult s) a.

Definition hermite_simpson_midpoint (f : list R -> list R) (dt : R) (xi xi1 : list R) :=
  Rv_add (map (fun a => a / 2)%R (Rv_add xi xi1)) (Rv_scale (dt / 8) (Rv_sub (f xi) (f xi1))).
Definition hermite_simpson_step (f : list R -> list R) (dt : R) (xi xi1 : list R) :=
  let fm := f (hermite_simpson_midpoint f dt xi xi1) in
  Rv_add xi (Rv_scale (dt / 6) (Rv_add (Rv_add (f xi) (Rv_scale 4 fm)) (f xi1))).
Definition hermite_simpson_residual (f : list R -> list R) (dt : R) (xi xi1 : list R) :=
  Rv_sub (hermite_simpson_step f dt xi xi1) xi1.

(** The stage derivative as a function of a numeric state. *)
Definition stage_f_num base cfg (env : nat -> R) (u : Mat) (gamma_y : MX)
    (xs : list R) : list R :=
  map (eval env) (stage_f base cfg u gamma_y (map Const xs)).

(** Modelled from the spec: [lmpc::utils::align_yaw] is defined in
    [lmpc_utils/utils.hpp], not among the sources.  What is said of it is
    that the yaw it returns is its first argument moved by a whole number of
    turns towards the second. *)
Definition shifts_by_turns (align_yaw : MX -> MX -> MX) : Prop :=
  forall env yaw ref,
    exists k : Z, eval env (align_yaw yaw ref) = (eval env yaw + 2 * PI * IZR k)%R.

(** ** An example vehicle and stage

    The parameter files of the repository are not among the sources; the
    values below are an illustrative parameter set, used where a statement
    is tried on concrete data. *)
Definition example_base_config : BaseVehicleModelConfig := {|
  chassis_config := {| total_mass := 800; moi := 1000; wheel_base := 3; cg_ratio := 0.5;
                       cg_height := 0.5; tw_f := 2; tw_r := 2; fr := 0.01 |};
  steer_config := {| max_steer := 0.5; max_steer_rate := 1 |};
  powertrain_config := {| kd := 0 |};
  front_brake_config := {| bias := 0.5 |};
  aero_config := {| cl_f := 1; cl_r := 1; air_density := 1.2; frontal_area := 1;
                    drag_coeff := 1 |};
  front_tyre_config := {| pacejka_b := 10; pacejka_c := 2; pacejka_e := 1;
                          pacejka_fz0 := 3000; pacejka_eps := -0.1 |};
  rear_tyre_config := {| pacejka_b := 10; pacejka_c := 2; pacejka_e := 1;
                         pacejka_fz0 := 3000; pacejka_eps := -0.1 |}
|}.
Definition example_config : DoubleTrackPlanarModelConfig := {|
  mu := 1; kroll_f := 0.5; P_max := 100000; Fd_max := 1000; Fb_max := -2000;
  Td := 1; Tb := 1
|}.

(** An [align_yaw] that never turns the yaw. *)
Definition no_turn (yaw ref : MX) : MX := yaw.

(** An [align_yaw] that always takes one full turn off. *)
Definition turn_back (yaw ref : MX) : MX := (yaw - Const (2 * PI))%mx.

(** The decision variables of one stage, one primitive per component. *)
Definition example_x : Mat :=
  [Sym "x" 0; Sym "x" 1; Sym "x" 2; Sym "x" 3; Sym "x" 4; Sym "x" 5].
Definition example_u : Mat := [Sym "u" 6; Sym "u" 7; Sym "u" 8].
Definition example_gamma_y : Mat := [Sym "gamma_y" 9].
Definition example_xip1 : Mat :=
  [Sym "xip1" 10; Sym "xip1" 11; Sym "xip1" 12; Sym "xip1" 13; Sym "xip1" 14; Sym "xip1" 15].
Definition example_uip1 : Mat := [Sym "uip1" 16; Sym "uip1" 17; Sym "uip1" 18].
Definition example_t : Mat := [Sym "t" 19].
Definition example_stage : MXDict :=
  stage_dict example_x example_u example_gamma_y example_xip1 example_uip1 example_t.

(** Full drive force at rest, released completely within one step of 0.1 s. *)
Definition release_env (i : nat) : R :=
  match i with
  | 6 => 1000
  | 19 => 0.1
  | _ => 0
  end.

(** The reading of the rate bounds as two-sided: under the constraints [cs],
    the rate of change of every control is bounded in absolute value by its
    limit over its time constant. *)
Definition rate_bounded_both_ways (base : BaseVehicleModelConfig)
    (cfg : DoubleTrackPlanarModelConfig) (cs : list Constraint)
    (u uip1 : Mat) (t : MX) : Prop :=
  forall env,
    Forall (holds 0 env) cs ->
    let rate i := ((eval env (el uip1 i) - eval env (el u i)) / eval env t)%R in
    (Rabs (rate 0%nat) <= Rabs (Fd_max cfg / Td cfg)
     /\ Rabs (rate 1%nat) <= Rabs (Fb_max cfg / Tb cfg)
     /\ Rabs (rate 2%nat) <= Rabs (max_steer (steer_config base) / Tdelta base))%R.

(** ** What [forward_dynamics] hands back *)

(** The arguments [dynamics_] is called with, once the dictionary has been
    checked against the input names and sizes. *)
Definition dyn_args (in_ : MXDict) : option (Mat * Mat) :=
  if decide (map_Forall (fun k _ => k ∈ ["x"; "u"; "gamma_y"]) in_) then
    x ← fit 6 (default [Const 0] (in_ !! "x"));
    u ← fit 3 (default [Const 0] (in_ !! "u"));
    Some (x, u)
  else None.

(** The node [n] is not used by any expression of the dictionary, as is the
    case for a node allocated after the dictionary was built. *)
Definition fresh_for (n : nat) (in_ : MXDict) : Prop :=
  map_Forall (fun _ m => Forall (fun e => occurs n e = false) m) in_.

(** The dictionary [forward_dynamics] returns, with the temporary primitive
    eliminated. *)
Definition forward_dynamics_value (this : DoubleTrackPlanarModel) (in_ : MXDict)
    : option MXDict :=
  xu ← dyn_args in_;
  gamma_y_solve ← call (lateral_load_transfer_ this) [[Const 0.0]];
  g0 ← gamma_y_solve !! 0%nat;
  match g0 with
  | [d] => Some (<["gamma_y" := g0]>
                   (outputs (base_config_ this) (config_ this) xu.1 xu.2 d))
  | _ => None
  end.

(** The input of the test [TestDoubleTrackDynamics]. *)
Definition scenario_x : Mat := map Const [0; 0; 0; 0.1; 0.02; 40]%R.
Definition scenario_u : Mat := map Const [500; 0; 0.1]%R.
Definition scenario_in : MXDict := <["x" := scenario_x]> {["u" := scenario_u]}.

(** A model whose [lateral_load_transfer_] is bound, to a function of one
    argument that returns zero. *)
Definition zero_function : FunctionInternal := {|
  name_in := ["i0"]; size_in := [1]; name_out := ["o0"];
  body := fun _ => Some [[Const 0]]
|}.
Definition bound_example_model : DoubleTrackPlanarModel := {|
  base_config_ := example_base_config;
  config_ := example_config;
  dynamics_ := Some (double_track_planar_model example_base_config example_config);
  lateral_load_transfer_ := Some zero_function
|}.

(** ** Denominators of the dynamics *)



Definition example_model : DoubleTrackPlanarModel :=
  DoubleTrackPlanarModel_ctor example_base_config example_config.

(** A car coasting straight ahead at 1 m/s over a step of 0.1 s: no drive, no
    brake, no steer, the same state at both ends of the step. *)
Definition coast_env (i : nat) : R :=
  match i with
  | 5 => 1
  | 15 => 1
  | 19 => 0.1
  | _ => 0
  end.

(** * Properties *)

(** ** Calling the compiled dynamics *)

Lemma call_dict_dynamics base cfg (arg : MXDict) x0 x1 x2 x3 x4 x5 u0 u1 u2 g :
  arg !! "x" = Some [x0; x1; x2; x3; x4; x5] ->
  arg !! "u" = Some [u0; u1; u2] ->
  arg !! "gamma_y" = Some [g] ->
  map_Forall (fun k _ => k ∈ ["x"; "u"; "gamma_y"]) arg ->
  call_dict (Some (double_track_planar_model base cfg)) arg
  = Some (outputs base cfg [x0; x1; x2; x3; x4; x5] [u0; u1; u2] g).
Proof.
  intros Hx Hu Hg Hk. unfold call_dict.
  cbn [mbind option_bind name_in double_track_planar_model].
  rewrite decide_True by exact Hk.
  cbn [map]. rewrite Hx, Hu, Hg. reflexivity.
Qed.

Section Calls.
Variables (base : BaseVehicleModelConfig) (cfg : DoubleTrackPlanarModelConfig).
Variables a0 a1 a2 a3 a4 a5 b0 b1 b2 c : MX.
Let this := DoubleTrackPlanarModel_ctor base cfg.
Let out :=
  dynamics_call this (Some [a0; a1; a2; a3; a4; a5]) (Some [b0; b1; b2]) (Some [c]).

Lemma dynamics_call_ctor :
  out = Some (outputs base cfg [a0; a1; a2; a3; a4; a5] [b0; b1; b2] c).
Proof.
  unfold out, dynamics_call. cbn [mbind option_bind].
  apply call_dict_dynamics; try done.
  intros k v. rewrite !lookup_insert_Some, lookup_singleton_Some.
  intros [[<- _]|[_ [[<- _]|[_ [<- _]]]]]; repeat constructor.
Qed.

Lemma x_dot_at : out ≫= (.!! "x_dot") = Some (x_dot base cfg a2 a3 a4 a5 b0 b1 b2 c).
Proof. rewrite dynamics_call_ctor. reflexivity. Qed.
Lemma Fx_ij_at : out ≫= (.!! "Fx_ij") = Some (Fx_ij base b0 b1).
Proof. rewrite dynamics_call_ctor. reflexivity. Qed.
Lemma Fy_ij_at : out ≫= (.!! "Fy_ij") = Some (Fy_ij base cfg a3 a4 a5 b0 b1 b2 c).
Proof. rewrite dynamics_call_ctor. reflexivity. Qed.
Lemma Fz_ij_at : out ≫= (.!! "Fz_ij") = Some (Fz_ij base cfg a5 b0 b1 c).
Proof. rewrite dynamics_call_ctor. reflexivity. Qed.
End Calls.

(** ** Evaluation of vector expressions *)

Lemma eval_vadd env a b :
  map (eval env) (vadd a b) = Rv_add (map (eval env) a) (map (eval env) b).
Proof. revert b; induction a as [|e a IH]; intros [|e' b]; simpl; f_equal; auto. Qed.

Lemma eval_vsub env a b :
  map (eval env) (vsub a b) = Rv_sub (map (eval env) a) (map (eval env) b).
Proof. revert b; induction a as [|e a IH]; intros [|e' b]; simpl; f_equal; auto. Qed.

Lemma eval_vscale env s a :
  map (eval env) (vscale s a) = Rv_scale (eval env s) (map (eval env) a).
Proof. induction a as [|e a IH]; simpl; f_equal; auto. Qed.

Lemma half_scale (l : list R) : Rv_scale 0.5 l = map (fun a => a / 2)%R l.
Proof. apply map_ext. intros a. lra. Qed.

(** Evaluation commutes with the stage derivative: the value of [f] at a
    symbolic state is [f] at the value of the state. *)
Lemma eval_stage_f base cfg env (u : Mat) g (X : Mat) :
  map (eval env) (stage_f base cfg u g X)
  = stage_f_num base cfg env u g (map (eval env) X).
Proof.
  unfold stage_f_num, stage_f.
  destruct X as [|a0 [|a1 [|a2 [|a3 [|a4 [|a5 [|a6 X]]]]]]]; try reflexivity.
  destruct u as [|b0 [|b1 [|b2 [|b3 u]]]]; reflexivity.
Qed.

Lemma eval_hs_midpoint base cfg env u g t a b :
  map (eval env) (hs_midpoint t (stage_f base cfg u g) a b)
  = hermite_simpson_midpoint (stage_f_num base cfg env u g) (eval env t)
      (map (eval env) a) (map (eval env) b).
Proof.
  unfold hs_midpoint, hermite_simpson_midpoint.
  rewrite eval_vadd, !eval_vscale, eval_vadd, eval_vsub, !eval_stage_f.
  cbn [eval]. rewrite half_scale. do 3 f_equal. lra.
Qed.

Lemma eval_hs_step base cfg env u g t a b :
  map (eval env) (hs_step t (stage_f base cfg u g) a b)
  = hermite_simpson_step (stage_f_num base cfg env u g) (eval env t)
      (map (eval env) a) (map (eval env) b).
Proof.
  unfold hs_step, hermite_simpson_step.
  rewrite eval_vadd, eval_vscale, !eval_vadd, eval_vscale, !eval_stage_f, eval_hs_midpoint.
  cbn [eval]. do 3 f_equal. lra.
Qed.

Lemma eval_hs_defect base cfg env u g t a b :
  map (eval env) (hs_defect t (stage_f base cfg u g) a b)
  = hermite_simpson_residual (stage_f_num base cfg env u g) (eval env t)
      (map (eval env) a) (map (eval env) b).
Proof.
  unfold hs_defect, hermite_simpson_residual. now rewrite eval_vsub, eval_hs_step.
Qed.

(** ** Satisfaction of scalar and of vector constraints *)

Lemma broadcast_scalar_r (a : Mat) (s : MX) : broadcast a [s] = map (fun e => (e, s)) a.
Proof. destruct a as [|e [|e' a]]; reflexivity. Qed.

Lemma holds_eq_zero tol env (D : Mat) :
  holds tol env (CEq D [Const 0]) <-> Forall (fun d => Rabs (eval env d) <= tol)%R D.
Proof.
  cbn [holds]. rewrite broadcast_scalar_r, Forall_map.
  apply Forall_proper; [|reflexivity]. intros d. cbn [fst snd eval].
  now rewrite Rminus_0_r.
Qed.

Lemma holds_eq_scalar tol env a b :
  holds tol env (CEq [a] [b]) <-> (Rabs (eval env a - eval env b) <= tol)%R.
Proof. cbn. now rewrite Forall_singleton. Qed.

Lemma holds_le_scalar tol env a b :
  holds tol env (CLe [a] [b]) <-> (eval env a <= eval env b + tol)%R.
Proof. cbn. now rewrite Forall_singleton. Qed.

Lemma holds_ge_scalar tol env a b :
  holds tol env (CGe [a] [b]) <-> (eval env b <= eval env a + tol)%R.
Proof. cbn. now rewrite Forall_singleton. Qed.

Lemma holds_bounded_scalar tol env lb e ub :
  holds tol env (CBounded [lb] [e] [ub])
  <-> (eval env lb <= eval env e + tol /\ eval env e <= eval env ub + tol)%R.
Proof. cbn. now rewrite !Forall_singleton. Qed.

Lemma Rabs_le_iff (a b : R) : (Rabs a <= b <-> - b <= a <= b)%R.
Proof.
  split; [|apply Rabs_le].
  unfold Rabs. destruct (Rcase_abs a); lra.
Qed.

Lemma nth_Rv_sub (a b : list R) j :
  j < length a -> j < length b ->
  nth j (Rv_sub a b) 0%R = (nth j a 0 - nth j b 0)%R.
Proof.
  revert b j; induction a as [|r a IH]; intros [|r' b] [|j]; simpl; try lia; auto.
  intros. apply IH; lia.
Qed.

(** A residual within tolerance puts every component of the re-integrated
    state within tolerance of the state it is compared with. *)
Lemma residual_within tol (step x' res : list R) :
  res = Rv_sub step x' -> length step = length x' ->
  Forall (fun d => Rabs d <= tol)%R res ->
  forall j, j < length x' -> (Rabs (nth j step 0 - nth j x' 0) <= tol)%R.
Proof.
  intros -> Hlen Hall j Hj.
  rewrite <- nth_Rv_sub by lia.
  rewrite Forall_forall in Hall. apply Hall.
  apply list_elem_of_In, nth_In. unfold Rv_sub. rewrite length_zip_with. lia.
Qed.

(** ** The constraints of a stage *)

Section Stage.
Variable align_yaw : MX -> MX -> MX.
Variables (base : BaseVehicleModelConfig) (cfg : DoubleTrackPlanarModelConfig).
Variables x0 x1 x2 x3 x4 x5 u0 u1 u2 g y0 y1 y2 y3 y4 y5 w0 w1 w2 t : MX.
Variable in_ : MXDict.
Hypothesis Hx : in_ !! "x" = Some [x0; x1; x2; x3; x4; x5].
Hypothesis Hu : in_ !! "u" = Some [u0; u1; u2].
Hypothesis Hg : in_ !! "gamma_y" = Some [g].
Hypothesis Hxip1 : in_ !! "xip1" = Some [y0; y1; y2; y3; y4; y5].
Hypothesis Huip1 : in_ !! "uip1" = Some [w0; w1; w2].
Hypothesis Ht : in_ !! "t" = Some [t].

Let x := [x0; x1; x2; x3; x4; x5].
Let u := [u0; u1; u2].
Let xip1 := [y0; y1; y2; y3; y4; y5].
Let uip1 := [w0; w1; w2].
Let xip1_temp := [y0; y1; align_yaw y2 x2; y3; y4; y5].
Let this := DoubleTrackPlanarModel_ctor base cfg.

Lemma add_nlp_constraints_stage (opti : Opti) :
  add_nlp_constraints align_yaw this opti in_
  = Some (opti ++ stage_constraints align_yaw base cfg x u g xip1 uip1 t)%list.
Proof.
  unfold add_nlp_constraints, T. rewrite Hx, Hu, Hg, Hxip1, Huip1, Ht.
  unfold this. rewrite Fx_ij_at, Fy_ij_at, Fz_ij_at.
  cbn [at_ mbind option_bind lookup list_lookup set_at ew2 length Nat.eqb Nat.ltb
       Nat.leb zip_with insert list_insert].
  rewrite !x_dot_at.
  cbn [ew2 mbind option_bind length Nat.eqb x_dot zip_with map dbl].
  rewrite !x_dot_at.
  cbn -[eval vx vy omega_dot beta_dot v_dot Fx_fl Fx_fr Fx_rl Fx_rr
        Fy_fl Fy_fr Fy_rl Fy_rr Fz_fl Fz_fr Fz_rl Fz_rr].
  rewrite <- !app_assoc. reflexivity.
Qed.

(** Re-integration of the stage: a defect within tolerance keeps every
    component of the Hermite-Simpson step within tolerance of the aligned
    next state. *)
Lemma defect_reintegration tol env :
  holds tol env (dynamics_constraint align_yaw base cfg x u g xip1 t) ->
  forall j, j < 6 ->
    (Rabs (nth j (hermite_simpson_step (stage_f_num base cfg env u g) (eval env t)
                    (map (eval env) x) (map (eval env) xip1_temp)) 0
           - nth j (map (eval env) xip1_temp) 0) <= tol)%R.
Proof.
  unfold dynamics_constraint. rewrite holds_eq_zero. intros Hall j Hj.
  apply (residual_within tol _ _
           (map (eval env) (hs_defect t (stage_f base cfg u g) x xip1_temp))).
  - apply eval_hs_defect.
  - reflexivity.
  - rewrite Forall_map. exact Hall.
  - exact Hj.
Qed.


(** C10.  Before the defect is formed, the yaw of the next state is replaced
    by [align_yaw] of it and of the current yaw, and only this copy enters
    the constraint.  When [align_yaw] moves a yaw by whole turns, a solution
    meeting the defect within tolerance re-integrates the yaw to the next
    yaw plus some whole number of turns, and every other component to the
    component of the next state itself. *)
Theorem yaw_aligned_before_defect (opti : Opti) :
  shifts_by_turns align_yaw ->
  exists rest,
    add_nlp_constraints align_yaw this opti in_
    = Some (opti ++ CEq (hs_defect t (stage_f base cfg u g) x
                           [y0; y1; align_yaw y2 x2; y3; y4; y5]) [Const 0] :: rest)%list
    /\ forall tol env,
         holds tol env (CEq (hs_defect t (stage_f base cfg u g) x
                               [y0; y1; align_yaw y2 x2; y3; y4; y5]) [Const 0]) ->
         let step := hermite_simpson_step (stage_f_num base cfg env u g) (eval env t)
                       (map (eval env) x)
                       (map (eval env) [y0; y1; align_yaw y2 x2; y3; y4; y5]) in
         (exists k : Z, (Rabs (nth 2 step 0 - (eval env y2 + 2 * PI * IZR k)) <= tol)%R)
         /\ forall j, j < 6 -> j <> 2 ->
              (Rabs (nth j step 0 - eval env (el xip1 j)) <= tol)%R.
Proof.
  intros Hturn. eexists. split; [apply add_nlp_constraints_stage|].
  intros tol env Hd step. pose proof (defect_reintegration tol env Hd) as Hre.
  split.
  - destruct (Hturn env y2 x2) as [k Hk]. exists k.
    rewrite <- Hk. exact (Hre 2 ltac:(lia)).
  - intros j Hj Hne. specialize (Hre j Hj).
    destruct j as [|[|[|[|[|[|j]]]]]]; try lia; exact Hre.
Qed.

Lemma accepted_stage tol env (opti opti' : Opti) :
  add_nlp_constraints align_yaw this opti in_ = Some opti' ->
  accepted tol env opti' ->
  Forall (holds tol env) (stage_constraints align_yaw base cfg x u g xip1 uip1 t).
Proof.
  rewrite add_nlp_constraints_stage. intros [= <-] Hacc.
  apply Forall_app in Hacc. tauto.
Qed.

(** C3.  A stage adds four friction-circle inequalities, one for each wheel
    [i] in the order FL, FR, RL, RR, on the forces [dynamics_] gives at the
    stage's state, control and load transfer; no other constraint of the
    stage has that form.  In a solution accepted within a tolerance each
    wheel satisfies [(Fx/(mu Fz))^2 + (Fy/(mu Fz))^2 <= 1] up to it. *)
Theorem friction_circle_per_wheel (opti : Opti) :
  let Fx := Fx_ij base u0 u1 in
  let Fy := Fy_ij base cfg x3 x4 x5 u0 u1 u2 g in
  let Fz := Fz_ij base cfg x5 u0 u1 g in
  let circle i :=
    CLe [ (PowN (el Fx i / (Const (mu cfg) * el Fz i)) 2
           + PowN (el Fy i / (Const (mu cfg) * el Fz i)) 2)%mx ] [Const 1] in
  exists pre post,
    add_nlp_constraints align_yaw this opti in_
    = Some (opti ++ pre ++ map circle [0; 1; 2; 3] ++ post)%list
    /\ forallb is_friction_circle (map circle [0; 1; 2; 3]) = true
    /\ forallb (fun c => negb (is_friction_circle c)) (pre ++ post) = true
    /\ forall tol env opti',
         add_nlp_constraints align_yaw this opti in_ = Some opti' ->
         accepted tol env opti' ->
         forall i, i < 4 ->
           ((eval env (el Fx i) / (mu cfg * eval env (el Fz i))) ^ 2
            + (eval env (el Fy i) / (mu cfg * eval env (el Fz i))) ^ 2 <= 1 + tol)%R.
Proof.
  intros Fx Fy Fz circle.
  exists [dynamics_constraint align_yaw base cfg x u g xip1 t],
    (load_transfer_constraint base cfg x u g
       :: static_actuator_constraints base cfg x u
       ++ dynamic_actuator_constraints base cfg u uip1 t)%list.
  split; [apply add_nlp_constraints_stage|].
  split; [reflexivity|]. split; [reflexivity|].
  intros tol env opti' Hadd Hacc i Hi.
  pose proof (accepted_stage tol env opti opti' Hadd Hacc) as Hall.
  unfold stage_constraints in Hall.
  apply Forall_cons in Hall as [_ Hall]. apply Forall_app in Hall as [Hall _].
  rewrite Forall_map in Hall. rewrite Forall_forall in Hall.
  assert (Hin : i ∈ seq 0 4) by (apply elem_of_seq; lia).
  specialize (Hall i Hin). unfold tyre_constraint in Hall.
  apply holds_le_scalar in Hall. exact Hall.
Qed.

(** C4.  After the tyre constraints a stage adds the load-transfer equality
    [gamma_y == hcog / (0.5 (twf + twr)) * (Fy_rl + Fy_rr + (Fx_fl + Fx_fr)
    sin(delta) + (Fy_fl + Fy_fr) cos(delta))] on the stage's own forces, so
    in a solution accepted within a tolerance [gamma_y] meets this
    equilibrium up to it. *)
Theorem load_transfer_consistency (opti : Opti) :
  let k := (cg_height (chassis_config base)
            / (0.5 * (tw_f (chassis_config base) + tw_r (chassis_config base))))%R in
  let FxFL := Fx_fl base u0 u1 in
  let FxFR := Fx_fr base u0 u1 in
  let FyFL := Fy_fl base cfg x3 x4 x5 u0 u1 u2 g in
  let FyFR := Fy_fr base cfg x3 x4 x5 u0 u1 u2 g in
  let FyRL := Fy_rl base cfg x3 x4 x5 u0 u1 g in
  let FyRR := Fy_rr base cfg x3 x4 x5 u0 u1 g in
  exists pre post,
    add_nlp_constraints align_yaw this opti in_
    = Some (opti ++ pre
            ++ CEq [g] [(Const k * (FyRL + FyRR + (FxFL + FxFR) * Sin u2
                                    + (FyFL + FyFR) * Cos u2))%mx] :: post)%list
    /\ length pre = 5
    /\ forall tol env opti',
         add_nlp_constraints align_yaw this opti in_ = Some opti' ->
         accepted tol env opti' ->
         (Rabs (eval env g
                - k * (eval env FyRL + eval env FyRR
                       + (eval env FxFL + eval env FxFR) * sin (eval env u2)
                       + (eval env FyFL + eval env FyFR) * cos (eval env u2))) <= tol)%R.
Proof.
  intros k FxFL FxFR FyFL FyFR FyRL FyRR.
  exists (dynamics_constraint align_yaw base cfg x u g xip1 t
            :: map (tyre_constraint base cfg x u g) (seq 0 4)),
    (static_actuator_constraints base cfg x u
       ++ dynamic_actuator_constraints base cfg u uip1 t)%list.
  split; [apply add_nlp_constraints_stage|]. split; [reflexivity|].
  intros tol env opti' Hadd Hacc.
  pose proof (accepted_stage tol env opti opti' Hadd Hacc) as Hall.
  unfold stage_constraints in Hall.
  apply Forall_cons in Hall as [_ Hall]. apply Forall_app in Hall as [_ Hall].
  apply Forall_cons in Hall as [Hload _].
  unfold load_transfer_constraint in Hload. apply holds_eq_scalar in Hload.
  exact Hload.
Qed.

(** C5.  Between the load-transfer equality and the rate bounds a stage adds
    six constraints on its state and control, and these are exactly:
    speed times drive at most [P_max]; speed at least zero; drive within
    [0, Fd_max]; brake within [Fb_max, 0]; the square of drive times brake at
    most one; and steer within [-max_steer, max_steer]. *)
Theorem static_actuator_bounds (opti : Opti) :
  let delta_max := max_steer (steer_config base) in
  let static :=
    [ CLe [(x5 * u0)%mx] [Const (P_max cfg)];
      CGe [x5] [Const 0.0];
      CBounded [Const 0.0] [u0] [Const (Fd_max cfg)];
      CBounded [Const (Fb_max cfg)] [u1] [Const 0.0];
      CLe [PowN (u0 * u1) 2] [Const 1.0];
      CBounded [Const (-1.0 * delta_max)] [u2] [Const delta_max] ] in
  exists pre post,
    add_nlp_constraints align_yaw this opti in_ = Some (opti ++ pre ++ static ++ post)%list
    /\ length pre = 6 /\ length post = 3
    /\ forall env,
         let v := eval env x5 in
         let fd := eval env u0 in
         let fb := eval env u1 in
         let delta := eval env u2 in
         Forall (holds 0 env) static
         <-> (0 <= v /\ v * fd <= P_max cfg /\ 0 <= fd <= Fd_max cfg
              /\ Fb_max cfg <= fb <= 0 /\ (fd * fb) ^ 2 <= 1
              /\ Rabs delta <= delta_max)%R.
Proof.
  intros delta_max static.
  exists (dynamics_constraint align_yaw base cfg x u g xip1 t
            :: map (tyre_constraint base cfg x u g) (seq 0 4)
            ++ [load_transfer_constraint base cfg x u g])%list,
    (dynamic_actuator_constraints base cfg u uip1 t).
  split.
  { rewrite add_nlp_constraints_stage. reflexivity. }
  split; [reflexivity|]. split; [reflexivity|].
  intros env v fd fb delta. subst static.
  rewrite !Forall_cons, Forall_nil.
  rewrite !holds_le_scalar, holds_ge_scalar, !holds_bounded_scalar.
  cbn [eval]. fold v fd fb delta.
  rewrite Rabs_le_iff. lra.
Qed.

(** C6, as the code has it.  The last three constraints of a stage bound the
    rate of change of the controls over the step: the drive-force rate from
    above by [Fd_max / Td], the brake-force rate from below by
    [Fb_max / Tb], and the steer rate on both sides by
    [max_steer / Tdelta], where [Tdelta = max_steer / max_steer_rate]. *)
Theorem actuator_rate_bounds (opti : Opti) :
  let delta_max := max_steer (steer_config base) in
  let Tdelta := (max_steer (steer_config base) / max_steer_rate (steer_config base))%R in
  let rates :=
    [ CLe [((w0 - u0) / t)%mx] [Const (Fd_max cfg / Td cfg)];
      CGe [((w1 - u1) / t)%mx] [Const (Fb_max cfg / Tb cfg)];
      CBounded [Const (- delta_max / Tdelta)] [((w2 - u2) / t)%mx]
               [Const (delta_max / Tdelta)] ] in
  exists pre,
    add_nlp_constraints align_yaw this opti in_ = Some (opti ++ pre ++ rates)%list
    /\ length pre = 12
    /\ forall env,
         let rate (a b : MX) := ((eval env a - eval env b) / eval env t)%R in
         Forall (holds 0 env) rates
         <-> (rate w0 u0 <= Fd_max cfg / Td cfg
              /\ Fb_max cfg / Tb cfg <= rate w1 u1
              /\ Rabs (rate w2 u2) <= delta_max / Tdelta)%R.
Proof.
  intros delta_max Tdelta rates.
  exists (dynamics_constraint align_yaw base cfg x u g xip1 t
            :: map (tyre_constraint base cfg x u g) (seq 0 4)
            ++ load_transfer_constraint base cfg x u g
            :: static_actuator_constraints base cfg x u)%list.
  split.
  { rewrite add_nlp_constraints_stage. reflexivity. }
  split; [reflexivity|].
  intros env rate. subst rates.
  rewrite !Forall_cons, Forall_nil.
  rewrite holds_le_scalar, holds_ge_scalar, holds_bounded_scalar.
  cbn [eval]. fold (rate w0 u0) (rate w1 u1) (rate w2 u2).
  set (lim := (delta_max / Tdelta)%R).
  replace (- delta_max / Tdelta)%R with (- lim)%R by (unfold lim, Rdiv; ring).
  rewrite Rabs_le_iff. lra.
Qed.
End Stage.

(** ** [forward_dynamics] *)

Lemma fit_length n a X : fit n a = Some X -> length X = n.
Proof.
  unfold fit. destruct (length a =? n)%nat eqn:E.
  - intros [= <-]. now apply Nat.eqb_eq.
  - destruct a as [|s [|s' a]]; intros [= <-]; now rewrite length_replicate.
Qed.

Lemma fit_fresh i n a X :
  fit n a = Some X -> Forall (fun e => occurs i e = false) a ->
  Forall (fun e => occurs i e = false) X.
Proof.
  unfold fit. destruct (length a =? n)%nat.
  - now intros [= <-].
  - destruct a as [|s [|s' a]]; intros [= <-] Ha.
    + apply Forall_replicate. reflexivity.
    + apply Forall_replicate. now apply Forall_inv in Ha.
Qed.

Lemma subst_fresh i d e : occurs i e = false -> subst i d e = e.
Proof.
  induction e; simpl; intros H; try reflexivity;
    try (apply orb_false_elim in H as [H1 H2]); 
    try (rewrite IHe by assumption); try (rewrite IHe1, IHe2 by assumption); try reflexivity.
  now rewrite H.
Qed.

Lemma known_with_gamma (in_ : MXDict) (v : Mat) :
  map_Forall (fun k (_ : Mat) => k ∈ ["x"; "u"; "gamma_y"]) (<["gamma_y" := v]> in_)
  <-> map_Forall (fun k (_ : Mat) => k ∈ ["x"; "u"; "gamma_y"]) in_.
Proof.
  split; intros H k w Hk.
  - destruct (decide (k = "gamma_y")) as [->|Hne]; [repeat constructor|].
    apply (H k w). now rewrite lookup_insert_ne.
  - apply lookup_insert_Some in Hk as [[<- _]|[_ Hk]]; [repeat constructor|].
    now apply (H k w).
Qed.

Lemma call_dict_with_gamma base cfg (in_ : MXDict) (gamma : MX) :
  call_dict (Some (double_track_planar_model base cfg)) (<["gamma_y" := [gamma]]> in_)
  = (fun xu => outputs base cfg xu.1 xu.2 gamma) <$> dyn_args in_.
Proof.
  unfold call_dict, dyn_args. cbn [mbind option_bind name_in double_track_planar_model].
  rewrite (decide_ext _ _ _ _ (known_with_gamma in_ [gamma])).
  destruct (decide _) as [Hk|Hk]; [|reflexivity].
  cbn [map]. rewrite !lookup_insert_ne by done. rewrite lookup_insert_eq.
  unfold call.
  cbn [mbind option_bind size_in name_out body double_track_planar_model length Nat.eqb
       zip zip_with mapM default fit].
  destruct (fit 6 _) as [X|] eqn:EX; [|reflexivity].
  destruct (fit 3 _) as [U|] eqn:EU; [|reflexivity].
  apply fit_length in EX, EU.
  destruct X as [|a0 [|a1 [|a2 [|a3 [|a4 [|a5 [|a6 X]]]]]]]; try discriminate.
  destruct U as [|b0 [|b1 [|b2 [|b3 U]]]]; try discriminate.
  reflexivity.
Qed.

Lemma dyn_args_shape in_ X U :
  dyn_args in_ = Some (X, U) -> length X = 6 /\ length U = 3.
Proof.
  unfold dyn_args. destruct (decide _); [|discriminate].
  destruct (fit 6 _) as [X'|] eqn:EX; [|discriminate].
  destruct (fit 3 _) as [U'|] eqn:EU; [|discriminate].
  intros [= <- <-]. split; eapply fit_length; eassumption.
Qed.

Lemma default_fresh i (in_ : MXDict) k :
  fresh_for i in_ -> Forall (fun e => occurs i e = false) (default [Const 0] (in_ !! k)).
Proof.
  intros Hf. destruct (in_ !! k) as [m|] eqn:E; cbn.
  - exact (Hf k m E).
  - repeat constructor.
Qed.

Lemma dyn_args_fresh i in_ X U :
  fresh_for i in_ -> dyn_args in_ = Some (X, U) ->
  Forall (fun e => occurs i e = false) X /\ Forall (fun e => occurs i e = false) U.
Proof.
  intros Hf. unfold dyn_args. destruct (decide _); [|discriminate].
  destruct (fit 6 _) as [X'|] eqn:EX; [|discriminate].
  destruct (fit 3 _) as [U'|] eqn:EU; [|discriminate].
  intros [= <- <-]. split; eapply fit_fresh; try eassumption; now apply default_fresh.
Qed.

Lemma x_dot_subst base cfg i d phi omega beta v fd fb delta gamma :
  map (subst i d) (x_dot base cfg phi omega beta v fd fb delta gamma)
  = x_dot base cfg (subst i d phi) (subst i d omega) (subst i d beta) (subst i d v)
      (subst i d fd) (subst i d fb) (subst i d delta) (subst i d gamma).
Proof. reflexivity. Qed.
Lemma Fx_ij_subst base i d fd fb :
  map (subst i d) (Fx_ij base fd fb) = Fx_ij base (subst i d fd) (subst i d fb).
Proof. reflexivity. Qed.
Lemma Fy_ij_subst base cfg i d omega beta v fd fb delta gamma :
  map (subst i d) (Fy_ij base cfg omega beta v fd fb delta gamma)
  = Fy_ij base cfg (subst i d omega) (subst i d beta) (subst i d v)
      (subst i d fd) (subst i d fb) (subst i d delta) (subst i d gamma).
Proof. reflexivity. Qed.
Lemma Fz_ij_subst base cfg i d v fd fb gamma :
  map (subst i d) (Fz_ij base cfg v fd fb gamma)
  = Fz_ij base cfg (subst i d v) (subst i d fd) (subst i d fb) (subst i d gamma).
Proof. reflexivity. Qed.

Lemma subst_hit i d nm : subst i d (Sym nm i) = d.
Proof. simpl. now rewrite Nat.eqb_refl. Qed.

Lemma outputs_subst base cfg i d nm X U :
  Forall (fun e => occurs i e = false) X -> Forall (fun e => occurs i e = false) U ->
  map (subst i d) <$> outputs base cfg X U (Sym nm i) = outputs base cfg X U d.
Proof.
  intros HX HU. unfold outputs.
  destruct X as [|a0 [|a1 [|a2 [|a3 [|a4 [|a5 [|a6 X]]]]]]]; try apply fmap_empty.
  destruct U as [|b0 [|b1 [|b2 [|b3 U]]]]; try apply fmap_empty.
  rewrite !fmap_insert, fmap_empty.
  rewrite x_dot_subst, Fx_ij_subst, Fy_ij_subst, Fz_ij_subst, !subst_hit.
  repeat match goal with H : Forall _ (_ :: _) |- _ => apply Forall_cons in H as [? H] end.
  rewrite !subst_fresh by assumption. reflexivity.
Qed.

Lemma outputs_lookup base cfg X U gamma k :
  length X = 6 -> length U = 3 -> k ∈ ["x_dot"; "Fx_ij"; "Fy_ij"; "Fz_ij"] ->
  is_Some (outputs base cfg X U gamma !! k).
Proof.
  intros HX HU Hk.
  destruct X as [|a0 [|a1 [|a2 [|a3 [|a4 [|a5 [|a6 X]]]]]]]; try discriminate.
  destruct U as [|b0 [|b1 [|b2 [|b3 U]]]]; try discriminate.
  unfold outputs.
  repeat (apply elem_of_cons in Hk as [->|Hk]; [eexists; reflexivity|]).
  now apply elem_of_nil in Hk.
Qed.

Lemma dict_mapM_substitute i nm (g0 : Mat) (out : MXDict) :
  is_Some (out !! "x_dot") ->
  dict_mapM (fun var => substitute var [Sym nm i] g0) out
  = match g0 with
    | [d] => Some (map (subst i d) <$> out)
    | _ => None
    end.
Proof.
  intros [m Hm]. unfold dict_mapM.
  destruct g0 as [|d [|d' g0]].
  - rewrite decide_False; [reflexivity|]. intros H. specialize (H _ _ Hm). now destruct H.
  - rewrite decide_True.
    + cbn [substitute]. now rewrite <- map_fmap_alt.
    + intros k v _. now eexists.
  - rewrite decide_False; [reflexivity|]. intros H. specialize (H _ _ Hm). now destruct H.
Qed.

Lemma forward_dynamics_returned this in_ node :
  dynamics_ this = Some (double_track_planar_model (base_config_ this) (config_ this)) ->
  fresh_for node in_ ->
  returned (forward_dynamics this in_ node) = forward_dynamics_value this in_.
Proof.
  intros Hdyn Hfresh. unfold forward_dynamics, forward_dynamics_value.
  cbn [MX_sym returned]. rewrite Hdyn, call_dict_with_gamma.
  destruct (dyn_args in_) as [[X U]|] eqn:Eargs; [|reflexivity].
  cbn [fmap option_fmap option_map mbind option_bind fst snd].
  destruct (dyn_args_shape _ _ _ Eargs) as [HX HU].
  destruct (dyn_args_fresh _ _ _ _ Hfresh Eargs) as [FX FU].
  destruct (outputs_lookup (base_config_ this) (config_ this) X U
              (Sym "gamma_y" node) "Fx_ij" HX HU) as [fx ->]; [repeat constructor|].
  destruct (outputs_lookup (base_config_ this) (config_ this) X U
              (Sym "gamma_y" node) "Fy_ij" HX HU) as [fy ->]; [repeat constructor|].
  cbn [mbind option_bind].
  destruct (call _ _) as [gs|]; [|reflexivity]. cbn [mbind option_bind].
  destruct (gs !! 0%nat) as [g0|]; [|reflexivity]. cbn [mbind option_bind].
  rewrite dict_mapM_substitute
    by (apply outputs_lookup; [assumption..|repeat constructor]).
  destruct g0 as [|d [|d' g0]]; try reflexivity.
  cbn [mbind option_bind]. now rewrite outputs_subst.
Qed.

Lemma forward_dynamics_null this in_ node :
  lateral_load_transfer_ this = None ->
  returned (forward_dynamics this in_ node) = None.
Proof.
  intros Hnull. unfold forward_dynamics. cbn [MX_sym returned].
  destruct (call_dict _ _) as [out|]; [|reflexivity]. cbn [mbind option_bind].
  destruct (out !! "Fx_ij"); [|reflexivity]. cbn [mbind option_bind].
  destruct (out !! "Fy_ij"); [|reflexivity]. cbn [mbind option_bind].
  now rewrite Hnull.
Qed.

Lemma returned_gamma_y this in_ node out :
  returned (forward_dynamics this in_ node) = Some out ->
  exists gs, call (lateral_load_transfer_ this) [[Const 0.0]] = Some gs
             /\ out !! "gamma_y" = gs !! 0%nat.
Proof.
  unfold forward_dynamics. cbn [MX_sym returned]. intros H.
  destruct (call_dict _ _) as [o|]; [cbn [mbind option_bind] in H|discriminate].
  destruct (o !! "Fx_ij"); [cbn [mbind option_bind] in H|discriminate].
  destruct (o !! "Fy_ij"); [cbn [mbind option_bind] in H|discriminate].
  destruct (call _ _) as [gs|]; [cbn [mbind option_bind] in H|discriminate].
  destruct (gs !! 0%nat) as [g0|] eqn:Eg; [cbn [mbind option_bind] in H|discriminate].
  destruct (dict_mapM _ _); [cbn [mbind option_bind] in H|discriminate].
  injection H as <-. exists gs. split; [reflexivity|].
  now rewrite lookup_insert_eq, Eg.
Qed.

(** Whatever is bound to [lateral_load_transfer_], the [gamma_y] entry that
    comes back is that function at the constant zero: it is the same for
    every input. *)
Lemma gamma_y_ignores_input this in1 in2 n1 n2 out1 out2 :
  returned (forward_dynamics this in1 n1) = Some out1 ->
  returned (forward_dynamics this in2 n2) = Some out2 ->
  out1 !! "gamma_y" = out2 !! "gamma_y".
Proof.
  intros H1 H2.
  apply returned_gamma_y in H1 as (gs1 & E1 & ->).
  apply returned_gamma_y in H2 as (gs2 & E2 & ->).
  congruence.
Qed.

(** C1.  On the model as the constructor leaves it, [forward_dynamics]
    returns no dictionary for any input: [lateral_load_transfer_] is still
    the null handle when it is called. *)
Theorem forward_dynamics_raises base cfg (in_ : MXDict) (node : nat) :
  returned (forward_dynamics (DoubleTrackPlanarModel_ctor base cfg) in_ node) = None.
Proof. now apply forward_dynamics_null. Qed.

(** C8.  At [x = (0, 0, 0, 0.1, 0.02, 40)], [u = (500, 0, 0.1)] the call
    returns no derivative vector, whatever the vehicle parameters. *)
Theorem forward_dynamics_scenario_raises base cfg (node : nat) :
  returned (forward_dynamics (DoubleTrackPlanarModel_ctor base cfg) scenario_in node) = None.
Proof. now apply forward_dynamics_null. Qed.

(** C7.  Two calls with the same input hand back the same thing, whichever
    nodes the temporary primitive [gamma_y] gets, and neither call changes
    the model.  This holds for the model with the compiled dynamics and with
    anything bound to [lateral_load_transfer_], the null handle included. *)
Theorem forward_dynamics_deterministic this (in_ : MXDict) (n1 n2 : nat) :
  dynamics_ this = Some (double_track_planar_model (base_config_ this) (config_ this)) ->
  fresh_for n1 in_ -> fresh_for n2 in_ ->
  returned (forward_dynamics this in_ n1) = returned (forward_dynamics this in_ n2)
  /\ this_after (forward_dynamics this in_ n1) = this
  /\ this_after (forward_dynamics this in_ n2) = this.
Proof.
  intros Hdyn H1 H2. split; [|split; reflexivity].
  now rewrite !forward_dynamics_returned.
Qed.

Lemma scenario_fresh n : fresh_for n scenario_in.
Proof.
  unfold fresh_for, scenario_in.
  apply map_Forall_insert_2; [repeat constructor|].
  apply map_Forall_singleton. repeat constructor.
Qed.

Lemma scenario_args :
  dyn_args scenario_in = Some (scenario_x, scenario_u).
Proof.
  unfold dyn_args. rewrite decide_True; [reflexivity|].
  unfold scenario_in. apply map_Forall_insert_2; [repeat constructor|].
  apply map_Forall_singleton. repeat constructor.
Qed.

(** With a function bound to [lateral_load_transfer_] the call does return,
    and the [gamma_y] it returns is the bound function's value at zero. *)
Example forward_dynamics_bound_returns (node : nat) :
  returned (forward_dynamics bound_example_model scenario_in node)
  = Some (<["gamma_y" := [Const 0]]>
            (outputs example_base_config example_config scenario_x scenario_u (Const 0))).
Proof.
  rewrite forward_dynamics_returned; [|reflexivity|apply scenario_fresh].
  unfold forward_dynamics_value. now rewrite scenario_args.
Qed.

Lemma forward_dynamics_deterministic_witness :
  returned (forward_dynamics bound_example_model scenario_in 0)
  = returned (forward_dynamics bound_example_model scenario_in 7)
  /\ this_after (forward_dynamics bound_example_model scenario_in 0) = bound_example_model
  /\ this_after (forward_dynamics bound_example_model scenario_in 7) = bound_example_model.
Proof.
  apply (forward_dynamics_deterministic bound_example_model scenario_in 0 7).
  - reflexivity.
  - apply scenario_fresh.
  - apply scenario_fresh.
Defined.

(** ** The stage theorems on the example stage *)


Lemma turn_back_shifts : shifts_by_turns turn_back.
Proof. intros env yaw ref. exists (-1)%Z. cbn [turn_back eval]. lra. Defined.

Lemma yaw_aligned_before_defect_witness :
  let gamma := Sym "gamma_y" 9 in
  let t := Sym "t" 19 in
  let aligned :=
    [Sym "xip1" 10; Sym "xip1" 11; turn_back (Sym "xip1" 12) (Sym "x" 2);
     Sym "xip1" 13; Sym "xip1" 14; Sym "xip1" 15] in
  let D := hs_defect t (stage_f example_base_config example_config example_u gamma)
             example_x aligned in
  exists rest,
    add_nlp_constraints turn_back example_model [] example_stage
    = Some ([] ++ CEq D [Const 0] :: rest)%list
    /\ forall tol env,
         holds tol env (CEq D [Const 0]) ->
         let step := hermite_simpson_step
                       (stage_f_num example_base_config example_config env example_u gamma)
                       (eval env t) (map (eval env) example_x) (map (eval env) aligned) in
         (exists k : Z,
            (Rabs (nth 2 step 0 - (eval env (Sym "xip1" 12) + 2 * PI * IZR k)) <= tol)%R)
         /\ forall j, j < 6 -> j <> 2 ->
              (Rabs (nth j step 0 - eval env (el example_xip1 j)) <= tol)%R.
Proof.
  apply (yaw_aligned_before_defect turn_back example_base_config example_config
           (Sym "x" 0) (Sym "x" 1) (Sym "x" 2) (Sym "x" 3) (Sym "x" 4) (Sym "x" 5)
           (Sym "u" 6) (Sym "u" 7) (Sym "u" 8) (Sym "gamma_y" 9)
           (Sym "xip1" 10) (Sym "xip1" 11) (Sym "xip1" 12) (Sym "xip1" 13)
           (Sym "xip1" 14) (Sym "xip1" 15)
           (Sym "uip1" 16) (Sym "uip1" 17) (Sym "uip1" 18) (Sym "t" 19) example_stage);
    try reflexivity.
  exact turn_back_shifts.
Defined.

Lemma friction_circle_per_wheel_witness :
  let Fx := Fx_ij example_base_config (Sym "u" 6) (Sym "u" 7) in
  let Fy := Fy_ij example_base_config example_config (Sym "x" 3) (Sym "x" 4) (Sym "x" 5)
              (Sym "u" 6) (Sym "u" 7) (Sym "u" 8) (Sym "gamma_y" 9) in
  let Fz := Fz_ij example_base_config example_config (Sym "x" 5) (Sym "u" 6) (Sym "u" 7)
              (Sym "gamma_y" 9) in
  let circle i :=
    CLe [ (PowN (el Fx i / (Const (mu example_config) * el Fz i)) 2
           + PowN (el Fy i / (Const (mu example_config) * el Fz i)) 2)%mx ] [Const 1] in
  exists pre post,
    add_nlp_constraints no_turn example_model [] example_stage
    = Some ([] ++ pre ++ map circle [0; 1; 2; 3] ++ post)%list
    /\ forallb is_friction_circle (map circle [0; 1; 2; 3]) = true
    /\ forallb (fun c => negb (is_friction_circle c)) (pre ++ post) = true
    /\ forall tol env opti',
         add_nlp_constraints no_turn example_model [] example_stage = Some opti' ->
         accepted tol env opti' ->
         forall i, i < 4 ->
           ((eval env (el Fx i) / (mu example_config * eval env (el Fz i))) ^ 2
            + (eval env (el Fy i) / (mu example_config * eval env (el Fz i))) ^ 2
            <= 1 + tol)%R.
Proof.
  apply (friction_circle_per_wheel no_turn example_base_config example_config
           (Sym "x" 0) (Sym "x" 1) (Sym "x" 2) (Sym "x" 3) (Sym "x" 4) (Sym "x" 5)
           (Sym "u" 6) (Sym "u" 7) (Sym "u" 8) (Sym "gamma_y" 9)
           (Sym "xip1" 10) (Sym "xip1" 11) (Sym "xip1" 12) (Sym "xip1" 13)
           (Sym "xip1" 14) (Sym "xip1" 15)
           (Sym "uip1" 16) (Sym "uip1" 17) (Sym "uip1" 18) (Sym "t" 19) example_stage);
    reflexivity.
Defined.

Lemma load_transfer_consistency_witness :
  let k := (cg_height (chassis_config example_base_config)
            / (0.5 * (tw_f (chassis_config example_base_config)
                      + tw_r (chassis_config example_base_config))))%R in
  let FxFL := Fx_fl example_base_config (Sym "u" 6) (Sym "u" 7) in
  let FxFR := Fx_fr example_base_config (Sym "u" 6) (Sym "u" 7) in
  let FyFL := Fy_fl example_base_config example_config (Sym "x" 3) (Sym "x" 4) (Sym "x" 5)
                (Sym "u" 6) (Sym "u" 7) (Sym "u" 8) (Sym "gamma_y" 9) in
  let FyFR := Fy_fr example_base_config example_config (Sym "x" 3) (Sym "x" 4) (Sym "x" 5)
                (Sym "u" 6) (Sym "u" 7) (Sym "u" 8) (Sym "gamma_y" 9) in
  let FyRL := Fy_rl example_base_config example_config (Sym "x" 3) (Sym "x" 4) (Sym "x" 5)
                (Sym "u" 6) (Sym "u" 7) (Sym "gamma_y" 9) in
  let FyRR := Fy_rr example_base_config example_config (Sym "x" 3) (Sym "x" 4) (Sym "x" 5)
                (Sym "u" 6) (Sym "u" 7) (Sym "gamma_y" 9) in
  exists pre post,
    add_nlp_constraints no_turn example_model [] example_stage
    = Some ([] ++ pre
            ++ CEq [Sym "gamma_y" 9]
                 [(Const k * (FyRL + FyRR + (FxFL + FxFR) * Sin (Sym "u" 8)
                              + (FyFL + FyFR) * Cos (Sym "u" 8)))%mx] :: post)%list
    /\ length pre = 5
    /\ forall tol env opti',
         add_nlp_constraints no_turn example_model [] example_stage = Some opti' ->
         accepted tol env opti' ->
         (Rabs (eval env (Sym "gamma_y" 9)
                - k * (eval env FyRL + eval env FyRR
                       + (eval env FxFL + eval env FxFR) * sin (eval env (Sym "u" 8))
                       + (eval env FyFL + eval env FyFR) * cos (eval env (Sym "u" 8))))
          <= tol)%R.
Proof.
  apply (load_transfer_consistency no_turn example_base_config example_config
           (Sym "x" 0) (Sym "x" 1) (Sym "x" 2) (Sym "x" 3) (Sym "x" 4) (Sym "x" 5)
           (Sym "u" 6) (Sym "u" 7) (Sym "u" 8) (Sym "gamma_y" 9)
           (Sym "xip1" 10) (Sym "xip1" 11) (Sym "xip1" 12) (Sym "xip1" 13)
           (Sym "xip1" 14) (Sym "xip1" 15)
           (Sym "uip1" 16) (Sym "uip1" 17) (Sym "uip1" 18) (Sym "t" 19) example_stage);
    reflexivity.
Defined.

Lemma static_actuator_bounds_witness :
  let delta_max := max_steer (steer_config example_base_config) in
  let static :=
    [ CLe [(Sym "x" 5 * Sym "u" 6)%mx] [Const (P_max example_config)];
      CGe [Sym "x" 5] [Const 0.0];
      CBounded [Const 0.0] [Sym "u" 6] [Const (Fd_max example_config)];
      CBounded [Const (Fb_max example_config)] [Sym "u" 7] [Const 0.0];
      CLe [PowN (Sym "u" 6 * Sym "u" 7) 2] [Const 1.0];
      CBounded [Const (-1.0 * delta_max)] [Sym "u" 8] [Const delta_max] ] in
  exists pre post,
    add_nlp_constraints no_turn example_model [] example_stage
    = Some ([] ++ pre ++ static ++ post)%list
    /\ length pre = 6 /\ length post = 3
    /\ forall env,
         let v := eval env (Sym "x" 5) in
         let fd := eval env (Sym "u" 6) in
         let fb := eval env (Sym "u" 7) in
         let delta := eval env (Sym "u" 8) in
         Forall (holds 0 env) static
         <-> (0 <= v /\ v * fd <= P_max example_config /\ 0 <= fd <= Fd_max example_config
              /\ Fb_max example_config <= fb <= 0 /\ (fd * fb) ^ 2 <= 1
              /\ Rabs delta <= delta_max)%R.
Proof.
  apply (static_actuator_bounds no_turn example_base_config example_config
           (Sym "x" 0) (Sym "x" 1) (Sym "x" 2) (Sym "x" 3) (Sym "x" 4) (Sym "x" 5)
           (Sym "u" 6) (Sym "u" 7) (Sym "u" 8) (Sym "gamma_y" 9)
           (Sym "xip1" 10) (Sym "xip1" 11) (Sym "xip1" 12) (Sym "xip1" 13)
           (Sym "xip1" 14) (Sym "xip1" 15)
           (Sym "uip1" 16) (Sym "uip1" 17) (Sym "uip1" 18) (Sym "t" 19) example_stage);
    reflexivity.
Defined.

Lemma actuator_rate_bounds_witness :
  let delta_max := max_steer (steer_config example_base_config) in
  let Tdelta := (max_steer (steer_config example_base_config)
                 / max_steer_rate (steer_config example_base_config))%R in
  let t := Sym "t" 19 in
  let rates :=
    [ CLe [((Sym "uip1" 16 - Sym "u" 6) / t)%mx]
          [Const (Fd_max example_config / Td example_config)];
      CGe [((Sym "uip1" 17 - Sym "u" 7) / t)%mx]
          [Const (Fb_max example_config / Tb example_config)];
      CBounded [Const (- delta_max / Tdelta)] [((Sym "uip1" 18 - Sym "u" 8) / t)%mx]
               [Const (delta_max / Tdelta)] ] in
  exists pre,
    add_nlp_constraints no_turn example_model [] example_stage
    = Some ([] ++ pre ++ rates)%list
    /\ length pre = 12
    /\ forall env,
         let rate (a b : MX) := ((eval env a - eval env b) / eval env t)%R in
         Forall (holds 0 env) rates
         <-> (rate (Sym "uip1" 16) (Sym "u" 6) <= Fd_max example_config / Td example_config
              /\ Fb_max example_config / Tb example_config
                 <= rate (Sym "uip1" 17) (Sym "u" 7)
              /\ Rabs (rate (Sym "uip1" 18) (Sym "u" 8)) <= delta_max / Tdelta)%R.
Proof.
  apply (actuator_rate_bounds no_turn example_base_config example_config
           (Sym "x" 0) (Sym "x" 1) (Sym "x" 2) (Sym "x" 3) (Sym "x" 4) (Sym "x" 5)
           (Sym "u" 6) (Sym "u" 7) (Sym "u" 8) (Sym "gamma_y" 9)
           (Sym "xip1" 10) (Sym "xip1" 11) (Sym "xip1" 12) (Sym "xip1" 13)
           (Sym "xip1" 14) (Sym "xip1" 15)
           (Sym "uip1" 16) (Sym "uip1" 17) (Sym "uip1" 18) (Sym "t" 19) example_stage);
    reflexivity.
Defined.

(** C6 as stated fails: on the example stage, the assignment [release_env]
    satisfies every static bound and every rate constraint the stage adds,
    and yet the drive force falls at ten times [Fd_max / Td]: the drive rate
    has no lower bound. *)
Lemma rate_bounds_two_sided_counterexample :
  exists opti',
    add_nlp_constraints no_turn example_model [] example_stage = Some opti'
    /\ ~ rate_bounded_both_ways example_base_config example_config
           (drop 6 opti') example_u example_uip1 (Sym "t" 19).
Proof.
  eexists. split.
  { apply (add_nlp_constraints_stage no_turn example_base_config example_config
             (Sym "x" 0) (Sym "x" 1) (Sym "x" 2) (Sym "x" 3) (Sym "x" 4) (Sym "x" 5)
             (Sym "u" 6) (Sym "u" 7) (Sym "u" 8) (Sym "gamma_y" 9)
             (Sym "xip1" 10) (Sym "xip1" 11) (Sym "xip1" 12) (Sym "xip1" 13)
             (Sym "xip1" 14) (Sym "xip1" 15)
             (Sym "uip1" 16) (Sym "uip1" 17) (Sym "uip1" 18) (Sym "t" 19));
      reflexivity. }
  intros Hboth. specialize (Hboth release_env).
  cbn [app drop stage_constraints map seq static_actuator_constraints
       dynamic_actuator_constraints] in Hboth.
  assert (Hsat : Forall (holds 0 release_env)
            (static_actuator_constraints example_base_config example_config
               example_x example_u
             ++ dynamic_actuator_constraints example_base_config example_config
                  example_u example_uip1 (Sym "t" 19))%list).
  { unfold static_actuator_constraints, dynamic_actuator_constraints, Tdelta.
    cbn [app el nth example_x example_u example_uip1].
    rewrite !Forall_cons, Forall_nil.
    rewrite !holds_le_scalar, !holds_ge_scalar, !holds_bounded_scalar.
    cbn [eval release_env example_base_config example_config steer_config max_steer
         max_steer_rate P_max Fd_max Fb_max Td Tb pow].
    repeat split; lra. }
  destruct (Hboth Hsat) as [Hdrive _].
  cbn [el nth example_u example_uip1 eval release_env example_config Fd_max Td] in Hdrive.
  rewrite (Rabs_pos_eq (1000 / 1)) in Hdrive by lra.
  apply Rabs_le_iff in Hdrive. lra.
Qed.

(** ** Denominators *)




(** * Further properties of the code *)

(** ** The force model of [compile_dynamics] *)

Ltac decimals := unfold Q2R, GRAVITY in *; cbn [QArith_base.Qnum QArith_base.Qden] in *.

Section ForceModel.
Variable base : BaseVehicleModelConfig.
Variable cfg : DoubleTrackPlanarModelConfig.
Variable env : nat -> R.
Variables phi omega beta v fd fb delta gamma_y : MX.

Let m := total_mass (chassis_config base).
Let l := wheel_base (chassis_config base).

Lemma axle_distances : (cg_ratio (chassis_config base) * l + (l - cg_ratio (chassis_config base) * l) = l)%R.
Proof. ring. Qed.

(** X1.  The drive and brake bias only distribute the longitudinal force:
    the four tyre forces add up to drive plus brake minus the rolling
    resistance [fr m g], whatever the bias values. *)
Theorem total_longitudinal_force :
  (l <> 0)%R ->
  (eval env (Fx_fl base fd fb) + eval env (Fx_fr base fd fb)
   + eval env (Fx_rl base fd fb) + eval env (Fx_rr base fd fb)
   = eval env fd + eval env fb - fr (chassis_config base) * m * GRAVITY)%R.
Proof.
  intros Hl. unfold Fx_fl, Fx_fr, Fx_rl, Fx_rr, Fx_f, Fx_r. cbn [eval].
  decimals. fold l m. field. exact Hl.
Qed.

(** X2.  Load transfer only redistributes the vertical load: the four
    vertical tyre forces add up to an amount that depends on the speed alone,
    not on the load-transfer variable, the drive or the brake force.  The
    static part is [2 (1 - cg_ratio) m g], because the rear axle takes the
    same static term as the front one. *)
Theorem total_vertical_load :
  (l <> 0)%R ->
  (eval env (Fz_fl base cfg v fd fb gamma_y) + eval env (Fz_fr base cfg v fd fb gamma_y)
   + eval env (Fz_rl base cfg v fd fb gamma_y) + eval env (Fz_rr base cfg v fd fb gamma_y)
   = 2 * (1 - cg_ratio (chassis_config base)) * m * GRAVITY
     + 0.5 * (cl_f (aero_config base) + cl_r (aero_config base))
       * air_density (aero_config base) * frontal_area (aero_config base)
       * eval env v ^ 2)%R.
Proof.
  intros Hl. unfold Fz_fl, Fz_fr, Fz_rl, Fz_rr, Fz_f, Fz_r, v_sq. cbn [eval].
  fold l m. rewrite axle_distances. decimals. field. exact Hl.
Qed.

(** X3.  The load-transfer variable is the total left-to-right difference
    of vertical load, halved: the front axle carries the share [kroll_f] of
    it and the rear axle the rest. *)
Theorem lateral_load_difference :
  (eval env (Fz_fr base cfg v fd fb gamma_y) - eval env (Fz_fl base cfg v fd fb gamma_y)
   = 2 * kroll_f cfg * eval env gamma_y
   /\ eval env (Fz_rr base cfg v fd fb gamma_y) - eval env (Fz_rl base cfg v fd fb gamma_y)
      = 2 * (1 - kroll_f cfg) * eval env gamma_y)%R.
Proof.
  unfold Fz_fl, Fz_fr, Fz_rl, Fz_rr. cbn [eval]. decimals. split; field.
Qed.

Lemma Rabs_sin_le_1 (a : R) : (Rabs (sin a) <= 1)%R.
Proof. apply Rabs_le. apply SIN_bound. Qed.

Lemma peak_bound (p s : R) : (Rabs s <= 1 -> Rabs (p * s) <= Rabs p)%R.
Proof.
  intros Hs. rewrite Rabs_mult. rewrite <- (Rmult_1_r (Rabs p)) at 2.
  apply Rmult_le_compat_l; [apply Rabs_pos|exact Hs].
Qed.

(** X4.  The lateral force of a tyre never exceeds, in absolute value, the
    load-dependent peak [mu Fz (1 + eps Fz / Fz0)] of its force curve. *)
Theorem lateral_force_peak :
  let peak (eps Fz0 Fz : R) := (mu cfg * Fz * (1 + eps * Fz / Fz0))%R in
  let front := peak (pacejka_eps (front_tyre_config base))
                    (pacejka_fz0 (front_tyre_config base)) in
  let rear := peak (pacejka_eps (rear_tyre_config base))
                   (pacejka_fz0 (rear_tyre_config base)) in
  (Rabs (eval env (Fy_fl base cfg omega beta v fd fb delta gamma_y))
   <= Rabs (front (eval env (Fz_fl base cfg v fd fb gamma_y)))
   /\ Rabs (eval env (Fy_fr base cfg omega beta v fd fb delta gamma_y))
      <= Rabs (front (eval env (Fz_fr base cfg v fd fb gamma_y)))
   /\ Rabs (eval env (Fy_rl base cfg omega beta v fd fb gamma_y))
      <= Rabs (rear (eval env (Fz_rl base cfg v fd fb gamma_y)))
   /\ Rabs (eval env (Fy_rr base cfg omega beta v fd fb gamma_y))
      <= Rabs (rear (eval env (Fz_rr base cfg v fd fb gamma_y))))%R.
Proof.
  intros peak front rear. unfold Fy_fl, Fy_fr, Fy_rl, Fy_rr, magic. cbn [eval].
  unfold front, rear, peak.
  replace 1.0%R with 1%R by lra.
  repeat split; apply peak_bound, Rabs_sin_le_1.
Qed.


(** X6.  The position derivative is the speed along the yaw direction: its
    two components have the squared norm [v^2]. *)
Theorem position_rate_norm :
  (eval env (vx phi v) ^ 2 + eval env (vy phi v) ^ 2 = eval env v ^ 2)%R.
Proof.
  unfold vx, vy. cbn [eval].
  pose proof (sin2_cos2 (eval env phi)) as H. unfold Rsqr in H.
  replace ((eval env v * cos (eval env phi)) ^ 2 + (eval env v * sin (eval env phi)) ^ 2)%R
    with (eval env v ^ 2 * (sin (eval env phi) * sin (eval env phi)
                            + cos (eval env phi) * cos (eval env phi)))%R by ring.
  rewrite H. ring.
Qed.

(** X7.  Left and right wheels of an axle get the same longitudinal force,
    so these forces turn the car only through the steer angle: the yaw
    acceleration has no term in the track widths times a longitudinal
    force. *)
Theorem yaw_moment_without_differential :
  let FyFL := eval env (Fy_fl base cfg omega beta v fd fb delta gamma_y) in
  let FyFR := eval env (Fy_fr base cfg omega beta v fd fb delta gamma_y) in
  let FyRL := eval env (Fy_rl base cfg omega beta v fd fb gamma_y) in
  let FyRR := eval env (Fy_rr base cfg omega beta v fd fb gamma_y) in
  let lf := (cg_ratio (chassis_config base) * l)%R in
  (eval env (omega_dot base cfg omega beta v fd fb delta gamma_y)
   = 1 / moi (chassis_config base)
     * (- (FyRL + FyRR) * (l - lf)
        + (FyFL - FyFR) * sin (eval env delta) * tw_f (chassis_config base) / 2
        + ((FyFL + FyFR) * cos (eval env delta)
           + 2 * eval env (Fx_f base fd fb) * sin (eval env delta)) * lf))%R.
Proof.
  intros FyFL FyFR FyRL FyRR lf. unfold omega_dot, Fx_rr, Fx_rl, Fx_fr, Fx_fl.
  cbn [eval]. fold FyFL FyFR FyRL FyRR l lf.
  replace 1.0%R with 1%R by lra. replace 2.0%R with 2%R by lra.
  unfold Rdiv. ring.
Qed.
End ForceModel.

(** ** Driving straight *)

Section StraightLine.
Variable base : BaseVehicleModelConfig.
Variable cfg : DoubleTrackPlanarModelConfig.
Variable env : nat -> R.
Variables omega beta v fd fb delta gamma_y : MX.
Hypothesis Hdelta : eval env delta = 0%R.
Hypothesis Hbeta : eval env beta = 0%R.
Hypothesis Homega : eval env omega = 0%R.

Lemma magic_at_zero B C E (a : MX) : eval env a = 0%R -> eval env (magic B C E a) = 0%R.
Proof.
  intros Ha. unfold magic. cbn [eval]. rewrite Ha.
  rewrite !Rmult_0_r, atan_0, Rminus_0_r, Rmult_0_r, Rminus_0_r, atan_0, Rmult_0_r.
  apply sin_0.
Qed.

Lemma slip_angles_straight :
  eval env (a_fl base omega beta v delta) = 0%R
  /\ eval env (a_fr base omega beta v delta) = 0%R
  /\ eval env (a_rl base omega beta v) = 0%R
  /\ eval env (a_rr base omega beta v) = 0%R.
Proof.
  unfold a_fl, a_fr, a_rl, a_rr, slip_num_f, slip_num_r. cbn [eval].
  rewrite Hdelta, Hbeta, Homega, sin_0, !Rmult_0_r, Rplus_0_r, Rminus_0_r.
  unfold Rdiv. rewrite !Rmult_0_l, atan_0, Rminus_0_r. tauto.
Qed.

Lemma lateral_forces_straight :
  eval env (Fy_fl base cfg omega beta v fd fb delta gamma_y) = 0%R
  /\ eval env (Fy_fr base cfg omega beta v fd fb delta gamma_y) = 0%R
  /\ eval env (Fy_rl base cfg omega beta v fd fb gamma_y) = 0%R
  /\ eval env (Fy_rr base cfg omega beta v fd fb gamma_y) = 0%R.
Proof.
  destruct slip_angles_straight as (Hfl & Hfr & Hrl & Hrr).
  unfold Fy_fl, Fy_fr, Fy_rl, Fy_rr.
  cbn [eval]. rewrite !magic_at_zero by assumption. rewrite !Rmult_0_r. tauto.
Qed.

Lemma straight_line_rates :
  (total_mass (chassis_config base) <> 0)%R ->
  (wheel_base (chassis_config base) <> 0)%R ->
  eval env (omega_dot base cfg omega beta v fd fb delta gamma_y) = 0%R
  /\ eval env (beta_dot base cfg omega beta v fd fb delta gamma_y) = 0%R
  /\ (total_mass (chassis_config base)
      * eval env (v_dot base cfg omega beta v fd fb delta gamma_y)
      = eval env fd + eval env fb
        - fr (chassis_config base) * total_mass (chassis_config base) * GRAVITY
        - 0.5 * drag_coeff (aero_config base) * air_density (aero_config base)
          * frontal_area (aero_config base) * eval env v ^ 2)%R.
Proof.
  intros Hm Hl.
  destruct lateral_forces_straight as (Hfl & Hfr & Hrl & Hrr).
  unfold omega_dot, beta_dot, v_dot. cbn [eval].
  rewrite Hfl, Hfr, Hrl, Hrr, Hdelta, Hbeta, Homega.
  rewrite Rminus_0_r, sin_0, cos_0.
  unfold Fx_rr, Fx_rl, Fx_fr, Fx_fl, Fx_f, Fx_r, v_sq, beta_dot_den. cbn [eval].
  decimals. split; [unfold Rdiv; ring|]. split; [unfold Rdiv; ring|]. field. auto.
Qed.
(** X8.  Driving straight (no steer, no slip, no yaw rate) is an equilibrium
    of yaw and slip: the yaw acceleration and the slip rate are zero, and the
    mass times the speed derivative is drive plus brake minus rolling
    resistance minus aerodynamic drag. *)
Theorem straight_line_equilibrium :
  (eval env v <> 0)%R ->
  (total_mass (chassis_config base) <> 0)%R ->
  (wheel_base (chassis_config base) <> 0)%R ->
  eval env (omega_dot base cfg omega beta v fd fb delta gamma_y) = 0%R
  /\ eval env (beta_dot base cfg omega beta v fd fb delta gamma_y) = 0%R
  /\ (total_mass (chassis_config base)
      * eval env (v_dot base cfg omega beta v fd fb delta gamma_y)
      = eval env fd + eval env fb
        - fr (chassis_config base) * total_mass (chassis_config base) * GRAVITY
        - 0.5 * drag_coeff (aero_config base) * air_density (aero_config base)
          * frontal_area (aero_config base) * eval env v ^ 2)%R.
Proof. intros _. apply straight_line_rates. Qed.
End StraightLine.


(** ** Invariance of the derivative *)

Lemma turns_nat_or_opp (k : Z) : exists n : nat, (IZR k = INR n \/ IZR k = - INR n)%R.
Proof.
  destruct (Z_le_gt_dec 0 k) as [H|H].
  - exists (Z.to_nat k). left. rewrite INR_IZR_INZ, Z2Nat.id; auto.
  - exists (Z.to_nat (- k)). right. rewrite INR_IZR_INZ, Z2Nat.id by lia.
    rewrite opp_IZR. lra.
Qed.

Lemma cos_turns (a : R) (k : Z) : cos (a + 2 * PI * IZR k) = cos a.
Proof.
  destruct (turns_nat_or_opp k) as [n [-> | ->]].
  - replace (a + 2 * PI * INR n)%R with (a + 2 * INR n * PI)%R by ring.
    apply cos_period.
  - rewrite <- (cos_period (a + 2 * PI * - INR n) n). f_equal. ring.
Qed.

Lemma sin_turns (a : R) (k : Z) : sin (a + 2 * PI * IZR k) = sin a.
Proof.
  destruct (turns_nat_or_opp k) as [n [-> | ->]].
  - replace (a + 2 * PI * INR n)%R with (a + 2 * INR n * PI)%R by ring.
    apply sin_period.
  - rewrite <- (sin_period (a + 2 * PI * - INR n) n). f_equal. ring.
Qed.

(** X9.  The derivative does not depend on where the car is, and it does not
    change when the yaw is moved by whole turns. *)
Theorem derivative_ignores_position_and_turns base cfg env (u : Mat) (g : MX)
    (px py px' py' yaw omega beta v : R) (k : Z) :
  stage_f_num base cfg env u g [px; py; (yaw + 2 * PI * IZR k)%R; omega; beta; v]
  = stage_f_num base cfg env u g [px'; py'; yaw; omega; beta; v].
Proof.
  unfold stage_f_num, stage_f. cbn [map].
  destruct u as [|fd [|fb [|delta [|? u]]]]; try reflexivity.
  unfold x_dot. cbn [map]. unfold vx, vy. cbn [eval].
  now rewrite cos_turns, sin_turns.
Qed.

(** ** Failure and shape of [add_nlp_constraints] *)

Lemma ew2_raise_l f b : ew2 f None b = None.
Proof. reflexivity. Qed.
Lemma ew2_raise_r f a : ew2 f a None = None.
Proof. now destruct a. Qed.
Lemma ew1_raise f : ew1 f None = None.
Proof. reflexivity. Qed.
Lemma at_raise i : at_ None i = None.
Proof. reflexivity. Qed.
Lemma set_at_raise_l i v : set_at None i v = None.
Proof. reflexivity. Qed.
Lemma set_at_raise_r m i : set_at m i None = None.
Proof. now destruct m. Qed.
Lemma cmp_raise_l mk b : cmp mk None b = None.
Proof. reflexivity. Qed.
Lemma cmp_raise_r mk a : cmp mk a None = None.
Proof. now destruct a. Qed.
Lemma bounded_raise lb ub : bounded lb None ub = None.
Proof. now destruct lb. Qed.
Lemma subject_to_raise opti : subject_to opti None = None.
Proof. reflexivity. Qed.
Lemma dynamics_call_raise_x this u g : dynamics_call this None u g = None.
Proof. reflexivity. Qed.
Lemma dynamics_call_raise_u this x g : dynamics_call this x None g = None.
Proof. now destruct x. Qed.
Lemma dynamics_call_raise_g this x u : dynamics_call this x u None = None.
Proof. now destruct x, u. Qed.
Lemma bind_raise {A B} (f : A -> option B) : None ≫= f = None.
Proof. reflexivity. Qed.

Create Rewrite HintDb raise.
#[local] Hint Rewrite ew2_raise_l ew2_raise_r ew1_raise at_raise set_at_raise_l set_at_raise_r
  cmp_raise_l cmp_raise_r bounded_raise subject_to_raise dynamics_call_raise_x
  dynamics_call_raise_u dynamics_call_raise_g @bind_raise : raise.

Ltac raise_now :=
  unfold T, pow, sin_, cos_; autorewrite with raise; cbn [mbind option_bind]; try reflexivity.
Ltac raises :=
  raise_now;
  repeat (match goal with
          | |- (?m ≫= _) = None => destruct m; cbn [mbind option_bind]; [|reflexivity]
          end; raise_now).

(** X10.  Each of the six entries [x], [u], [gamma_y], [xip1], [uip1] and
    [t] is read with [at]: when one of them is absent the call raises and
    hands back no problem. *)
Theorem add_nlp_constraints_missing_key align_yaw this (opti : Opti) (in_ : MXDict) (k : string) :
  In k ["x"; "u"; "gamma_y"; "xip1"; "uip1"; "t"] ->
  in_ !! k = None ->
  add_nlp_constraints align_yaw this opti in_ = None.
Proof.
  intros Hk Hnone. unfold add_nlp_constraints. cbv zeta.
  repeat (destruct Hk as [<-|Hk]; [rewrite Hnone; raises|]).
  destruct Hk.
Qed.

Lemma at_short (m : Mat) (i : nat) : length m <= i -> at_ (Some m) i = None.
Proof. intros H. unfold at_. cbn [mbind option_bind]. now rewrite lookup_ge_None_2. Qed.

(** X11.  The indices [x(5)], [u(2)], [xip1(2)] and [uip1(2)] have to exist:
    a state with fewer than six entries, or a control, a next state or a next
    control with fewer than three, makes the call raise. *)
Theorem add_nlp_constraints_index_out_of_range align_yaw this (opti : Opti) (in_ : MXDict) :
  (exists x, in_ !! "x" = Some x /\ length x < 6)
  \/ (exists u, in_ !! "u" = Some u /\ length u < 3)
  \/ (exists xip1, in_ !! "xip1" = Some xip1 /\ length xip1 < 3)
  \/ (exists uip1, in_ !! "uip1" = Some uip1 /\ length uip1 < 3) ->
  add_nlp_constraints align_yaw this opti in_ = None.
Proof.
  unfold add_nlp_constraints. cbv zeta.
  intros [(x & -> & H) | [(u & -> & H) | [(y & -> & H) | (w & -> & H)]]].
  - rewrite (at_short x 5) by lia. raises.
  - rewrite (at_short u 2) by lia. raises.
  - rewrite (at_short y 2) by lia. raises.
  - rewrite (at_short w 2) by lia. raises.
Qed.

Lemma subject_to_Some opti c opti' :
  subject_to opti c = Some opti' -> exists c', opti' = (opti ++ [c'])%list.
Proof. destruct c as [c|]; [intros [= <-]; eauto|discriminate]. Qed.

Lemma fold_subject_to (c : nat -> option Constraint) (l : list nat) init opti' :
  foldl (fun opti i => opti ← opti; subject_to opti (c i)) init l = Some opti' ->
  exists opti added, init = Some opti /\ opti' = (opti ++ added)%list
                     /\ length added = length l.
Proof.
  revert init. induction l as [|i l IH]; intros init; cbn [foldl].
  - intros ->. exists opti', []. now rewrite app_nil_r.
  - intros H. apply IH in H as (o1 & added & Hstep & -> & Hlen).
    destruct init as [o0|]; [cbn [mbind option_bind] in Hstep|discriminate].
    apply subject_to_Some in Hstep as [c' ->].
    exists o0, (c' :: added). rewrite <- app_assoc. cbn. auto.
Qed.

(** X12.  A call that returns has appended exactly fifteen constraints
    behind the ones the problem held, which stay in place and in order. *)
Theorem add_nlp_constraints_appends align_yaw this (opti : Opti) (in_ : MXDict) opti' :
  add_nlp_constraints align_yaw this opti in_ = Some opti' ->
  exists added, opti' = (opti ++ added)%list /\ length added = 15.
Proof.
  unfold add_nlp_constraints. cbv zeta. intros H.
  repeat match type of H with
         | (subject_to ?o ?c ≫= _) = Some _ =>
             let E := fresh "E" in
             destruct (subject_to o c) eqn:E; [cbn [mbind option_bind] in H|discriminate];
             apply subject_to_Some in E as [? ->]
         | (foldl ?f ?i ?l ≫= _) = Some _ =>
             let E := fresh "E" in
             destruct (foldl f i l) eqn:E; [cbn [mbind option_bind] in H|discriminate];
             apply fold_subject_to in E as (? & ? & [= <-] & -> & ?)
         end.
  injection H as <-. rewrite <- !app_assoc. eexists. split; [reflexivity|].
  rewrite !length_app. cbn [length seq] in *. lia.
Qed.

(** X13.  What a stage appends, and whether the call raises, does not depend
    on the constraints the problem already holds: the outcome on any problem
    is the outcome on the empty problem put behind it. *)
Theorem add_nlp_constraints_frame align_yaw this (opti : Opti) (in_ : MXDict) :
  add_nlp_constraints align_yaw this opti in_
  = (fun added => opti ++ added)%list <$> add_nlp_constraints align_yaw this [] in_.
Proof.
  unfold add_nlp_constraints. cbv zeta. cbn [foldl seq mbind option_bind].
  repeat match goal with
         | |- context [subject_to _ ?c] =>
             lazymatch c with
             | Some _ => fail
             | None => fail
             | _ => destruct c
             end
         end;
    cbn [subject_to mbind option_bind fmap option_fmap option_map app];
    try reflexivity.
  now rewrite <- !app_assoc.
Qed.

(** ** An accepted assignment of the example stage *)

Lemma small_ratio (a c : R) : (0 < c -> - c <= a <= c -> (a / c) ^ 2 <= 1)%R.
Proof.
  intros Hc Ha.
  assert (H : (-1 <= a / c <= 1)%R).
  { split.
    - apply (Rmult_le_reg_r c); [exact Hc|]. replace (a / c * c)%R with a by (field; lra). lra.
    - apply (Rmult_le_reg_r c); [exact Hc|]. replace (a / c * c)%R with a by (field; lra). lra. }
  set (r := (a / c)%R) in *. clearbody r. nra.
Qed.

Section Coast.
Let base := example_base_config.
Let cfg := example_config.
Let gamma := Sym "gamma_y" 9.
Let t := Sym "t" 19.

Lemma coast_derivative :
  exists a0 : R,
    (-1 <= a0 <= 0)%R
    /\ stage_f_num base cfg coast_env example_u gamma [0; 0; 0; 0; 0; 1]%R
       = [1; 0; 0; 0; 0; a0]%R.
Proof.
  destruct (straight_line_rates base cfg coast_env (Const 0) (Const 0) (Const 1)
              (Sym "u" 6) (Sym "u" 7) (Sym "u" 8) gamma eq_refl eq_refl eq_refl)
    as (Hw & Hb & Hv).
  { cbn. lra. }
  { cbn. lra. }
  eexists. split; [|unfold stage_f_num, stage_f, example_u, x_dot; cbn [map];
                    rewrite Hw, Hb; unfold vx, vy; cbn [eval];
                    rewrite cos_0, sin_0, Rmult_1_r, Rmult_0_r; reflexivity].
  cbn [eval coast_env base example_base_config chassis_config aero_config total_mass fr
       drag_coeff air_density frontal_area] in Hv. decimals. lra.
Qed.

Lemma coast_defect : holds 1 coast_env
  (dynamics_constraint no_turn base cfg example_x example_u gamma example_xip1 t).
Proof.
  unfold dynamics_constraint. rewrite holds_eq_zero.
  apply (proj1 (Forall_map (eval coast_env) (fun r => (Rabs r <= 1)%R) _)).
  rewrite eval_hs_defect.
  destruct coast_derivative as (a0 & Ha0 & HF).
  assert (HX : map (eval coast_env) example_x = [0; 0; 0; 0; 0; 1]%R) by reflexivity.
  assert (HX' : map (eval coast_env)
                  (aligned_xip1 no_turn example_x example_xip1) = [0; 0; 0; 0; 0; 1]%R)
    by reflexivity.
  rewrite HX, HX'.
  unfold hermite_simpson_residual, hermite_simpson_step.
  assert (Hmid : hermite_simpson_midpoint (stage_f_num base cfg coast_env example_u gamma)
                   (eval coast_env t) [0; 0; 0; 0; 0; 1]%R [0; 0; 0; 0; 0; 1]%R
                 = [0; 0; 0; 0; 0; 1]%R).
  { unfold hermite_simpson_midpoint. rewrite HF.
    cbn [Rv_add Rv_sub Rv_scale zip_with map]. repeat (f_equal; try lra). }
  rewrite Hmid, HF.
  cbn [Rv_add Rv_sub Rv_scale zip_with map eval t coast_env].
  rewrite !Forall_cons, Forall_nil.
  repeat split; apply Rabs_le; lra.
Qed.

Lemma coast_axle_sum : (0.5 * 3 + (3 - 0.5 * 3) = 3)%R.
Proof. lra. Qed.

Lemma coast_tyre (i : nat) :
  i < 4 -> holds 1 coast_env (tyre_constraint base cfg example_x example_u gamma i).
Proof.
  intros Hi. unfold tyre_constraint. rewrite holds_le_scalar.
  destruct (lateral_forces_straight base cfg coast_env (Sym "x" 3) (Sym "x" 4) (Sym "x" 5)
              (Sym "u" 6) (Sym "u" 7) (Sym "u" 8) gamma eq_refl eq_refl eq_refl)
    as (Hfl & Hfr & Hrl & Hrr).
  assert (Hzero : forall c : R, ((0 / c) ^ 2 = 0)%R) by (intros c; unfold Rdiv; ring).
  assert (Hwheel : forall a c : R, (0 < c -> - c <= a <= c -> (a / c) ^ 2 + 0 <= 1 + 1)%R).
  { intros a c Hc Ha. pose proof (small_ratio a c Hc Ha). lra. }
  destruct i as [|[|[|[|i]]]]; try lia;
    cbn [eval el nth stage_Fx stage_Fy stage_Fz Fx_ij Fy_ij Fz_ij example_x example_u];
    rewrite ?Hfl, ?Hfr, ?Hrl, ?Hrr, Hzero; apply Hwheel;
    unfold Fz_fl, Fz_fr, Fz_rl, Fz_rr, Fz_f, Fz_r, ax, v_sq, Fx_fl, Fx_fr, Fx_rl, Fx_rr,
      Fx_f, Fx_r, gamma;
    cbn [eval coast_env base cfg example_base_config example_config chassis_config
         aero_config powertrain_config front_brake_config total_mass wheel_base cg_ratio
         cg_height fr kd bias cl_f cl_r air_density frontal_area drag_coeff mu kroll_f pow];
    rewrite ?coast_axle_sum; decimals; lra.
Qed.

Lemma coast_load_transfer :
  holds 1 coast_env (load_transfer_constraint base cfg example_x example_u gamma).
Proof.
  unfold load_transfer_constraint, load_transfer_rhs. rewrite holds_eq_scalar.
  destruct (lateral_forces_straight base cfg coast_env (Sym "x" 3) (Sym "x" 4) (Sym "x" 5)
              (Sym "u" 6) (Sym "u" 7) (Sym "u" 8) gamma eq_refl eq_refl eq_refl)
    as (Hfl & Hfr & Hrl & Hrr).
  cbn [eval el nth stage_Fx stage_Fy Fx_ij Fy_ij example_x example_u
       TyreIndex.FL TyreIndex.FR TyreIndex.RL TyreIndex.RR].
  rewrite Hfl, Hfr, Hrl, Hrr. cbn [eval gamma coast_env]. rewrite sin_0.
  apply Rabs_le. lra.
Qed.

Lemma coast_actuators :
  Forall (holds 1 coast_env)
    (static_actuator_constraints base cfg example_x example_u
     ++ dynamic_actuator_constraints base cfg example_u example_uip1 t)%list.
Proof.
  unfold static_actuator_constraints, dynamic_actuator_constraints, Tdelta.
  cbn [app el nth example_x example_u example_uip1].
  rewrite !Forall_cons, Forall_nil.
  rewrite !holds_le_scalar, !holds_ge_scalar, !holds_bounded_scalar.
  cbn [eval t coast_env base cfg example_base_config example_config steer_config max_steer
       max_steer_rate P_max Fd_max Fb_max Td Tb pow].
  repeat split; lra.
Qed.

Lemma coast_accepted :
  accepted 1 coast_env
    (stage_constraints no_turn base cfg example_x example_u gamma example_xip1
       example_uip1 t).
Proof.
  unfold accepted, stage_constraints.
  apply Forall_cons. split; [apply coast_defect|].
  apply Forall_app. split.
  - apply Forall_map, Forall_forall. intros i Hi. apply coast_tyre.
    apply elem_of_seq in Hi. lia.
  - apply Forall_cons. split; [apply coast_load_transfer|apply coast_actuators].
Qed.
End Coast.

(** ** What accepted solutions satisfy *)

Section StageConsequences.
Variable align_yaw : MX -> MX -> MX.
Variables (base : BaseVehicleModelConfig) (cfg : DoubleTrackPlanarModelConfig).
Variables x0 x1 x2 x3 x4 x5 u0 u1 u2 g y0 y1 y2 y3 y4 y5 w0 w1 w2 t : MX.
Variable in_ : MXDict.
Hypothesis Hx : in_ !! "x" = Some [x0; x1; x2; x3; x4; x5].
Hypothesis Hu : in_ !! "u" = Some [u0; u1; u2].
Hypothesis Hg : in_ !! "gamma_y" = Some [g].
Hypothesis Hxip1 : in_ !! "xip1" = Some [y0; y1; y2; y3; y4; y5].
Hypothesis Huip1 : in_ !! "uip1" = Some [w0; w1; w2].
Hypothesis Ht : in_ !! "t" = Some [t].
Variables (opti opti' : Opti) (tol : R) (env : nat -> R).
Hypothesis Hadd :
  add_nlp_constraints align_yaw (DoubleTrackPlanarModel_ctor base cfg) opti in_ = Some opti'.
Hypothesis Hacc : accepted tol env opti'.

Let x := [x0; x1; x2; x3; x4; x5].
Let u := [u0; u1; u2].
Let xip1 := [y0; y1; y2; y3; y4; y5].
Let uip1 := [w0; w1; w2].

Lemma stage_holds :
  Forall (holds tol env) (stage_constraints align_yaw base cfg x u g xip1 uip1 t).
Proof.
  exact (accepted_stage align_yaw base cfg x0 x1 x2 x3 x4 x5 u0 u1 u2 g y0 y1 y2 y3 y4 y5
           w0 w1 w2 t in_ Hx Hu Hg Hxip1 Huip1 Ht tol env opti opti' Hadd Hacc).
Qed.

Lemma circle_to_forces (a b c lim : R) :
  (c <> 0 -> (a / c) ^ 2 + (b / c) ^ 2 <= lim -> a ^ 2 + b ^ 2 <= lim * c ^ 2)%R.
Proof.
  intros Hc H.
  replace (a ^ 2 + b ^ 2)%R with (((a / c) ^ 2 + (b / c) ^ 2) * c ^ 2)%R by (field; exact Hc).
  apply Rmult_le_compat_r; [|exact H].
  apply pow2_ge_0.
Qed.

(** X14.  In a solution accepted within [tol], each wheel with a nonzero
    [mu Fz] keeps its combined tyre force inside the friction circle:
    [Fx^2 + Fy^2 <= (1 + tol) (mu Fz)^2]. *)
Theorem friction_circle_in_forces (i : nat) :
  let Fx := eval env (el (Fx_ij base u0 u1) i) in
  let Fy := eval env (el (Fy_ij base cfg x3 x4 x5 u0 u1 u2 g) i) in
  let Fz := eval env (el (Fz_ij base cfg x5 u0 u1 g) i) in
  i < 4 ->
  (mu cfg * Fz <> 0)%R ->
  (Fx ^ 2 + Fy ^ 2 <= (1 + tol) * (mu cfg * Fz) ^ 2)%R.
Proof.
  intros Fx Fy Fz Hi Hn. apply circle_to_forces; [exact Hn|].
  pose proof stage_holds as Hall. unfold stage_constraints in Hall.
  apply Forall_cons in Hall as [_ Hall]. apply Forall_app in Hall as [Hall _].
  rewrite Forall_map, Forall_forall in Hall.
  assert (Hin : i ∈ seq 0 4) by (apply elem_of_seq; lia).
  specialize (Hall i Hin). unfold tyre_constraint in Hall.
  apply holds_le_scalar in Hall. exact Hall.
Qed.

Lemma rate_to_increment (d dt lim : R) :
  (0 < dt -> d / dt <= lim -> d <= dt * lim)%R.
Proof.
  intros Hdt H. replace d with (dt * (d / dt))%R by (field; lra).
  apply Rmult_le_compat_l; lra.
Qed.

(** X15.  Over a positive step [dt], a solution accepted within [tol] lets
    the drive force rise by at most [dt (Fd_max / Td + tol)], keeps the change
    of the brake force at or above [dt (Fb_max / Tb - tol)], and lets the
    steer angle move by at most [dt (max_steer_rate + tol)] either way: the
    steer bound [max_steer / Tdelta] is the configured steer rate. *)
Theorem control_increment_bounds :
  let dt := eval env t in
  let steer := steer_config base in
  (0 < dt)%R ->
  (max_steer steer <> 0)%R -> (max_steer_rate steer <> 0)%R ->
  (eval env w0 - eval env u0 <= dt * (Fd_max cfg / Td cfg + tol)
   /\ dt * (Fb_max cfg / Tb cfg - tol) <= eval env w1 - eval env u1
   /\ Rabs (eval env w2 - eval env u2) <= dt * (max_steer_rate steer + tol))%R.
Proof.
  intros dt steer Hdt Hs Hr.
  pose proof stage_holds as Hall. unfold stage_constraints in Hall.
  apply Forall_cons in Hall as [_ Hall]. apply Forall_app in Hall as [_ Hall].
  apply Forall_cons in Hall as [_ Hall]. apply Forall_app in Hall as [_ Hall].
  unfold dynamic_actuator_constraints, Tdelta in Hall.
  rewrite !Forall_cons in Hall. destruct Hall as (Hd & Hb & Hst & _).
  apply holds_le_scalar in Hd. apply holds_ge_scalar in Hb.
  apply holds_bounded_scalar in Hst. unfold uip1, u in Hd, Hb, Hst.
  cbn [eval el nth] in Hd, Hb, Hst.
  fold dt steer in Hd, Hb, Hst. destruct Hst as [Hlo Hhi].
  replace (max_steer steer / (max_steer steer / max_steer_rate steer))%R
    with (max_steer_rate steer) in Hhi by (field; auto).
  replace (- max_steer steer / (max_steer steer / max_steer_rate steer))%R
    with (- max_steer_rate steer)%R in Hlo by (field; auto).
  split; [|split].
  - now apply rate_to_increment.
  - assert (H : (- (eval env w1 - eval env u1) <= dt * - (Fb_max cfg / Tb cfg - tol))%R).
    { apply rate_to_increment; [exact Hdt|].
      replace (- (eval env w1 - eval env u1) / dt)%R
        with (- ((eval env w1 - eval env u1) / dt))%R by (unfold Rdiv; ring). lra. }
    lra.
  - apply Rabs_le_iff. split.
    + assert (H : (- (eval env w2 - eval env u2) <= dt * (max_steer_rate steer + tol))%R).
      { apply rate_to_increment; [exact Hdt|].
        replace (- (eval env w2 - eval env u2) / dt)%R
          with (- ((eval env w2 - eval env u2) / dt))%R by (unfold Rdiv; ring). lra. }
      lra.
    + now apply rate_to_increment.
Qed.

Lemma zero_scale_add (a l : list R) :
  length a <= length l -> Rv_add a (Rv_scale (0 / 6) l) = a.
Proof.
  revert l. induction a as [|r a IH]; intros [|r' l] Hlen; cbn in *; try reflexivity; try lia.
  f_equal; [lra|]. apply IH. lia.
Qed.

Theorem zero_step_keeps_state (j : nat) :
  eval env t = 0%R ->
  j < 6 ->
  (Rabs (eval env (el x j)
         - eval env (el [y0; y1; align_yaw y2 x2; y3; y4; y5] j)) <= tol)%R.
Proof.
  intros Hdt Hj.
  pose proof stage_holds as Hall. unfold stage_constraints in Hall.
  apply Forall_cons in Hall as [Hdef _].
  pose proof (defect_reintegration align_yaw base cfg x0 x1 x2 x3 x4 x5 u0 u1 u2 g
                y0 y1 y2 y3 y4 y5 t tol env Hdef j Hj) as Hre.
  unfold hermite_simpson_step in Hre. rewrite Hdt in Hre.
  rewrite zero_scale_add in Hre by reflexivity.
  destruct j as [|[|[|[|[|[|j]]]]]]; try lia; exact Hre.
Qed.
End StageConsequences.

(** ** [forward_dynamics] with a bound load-transfer function *)

Lemma outputs_fresh base cfg (i : nat) (x0 x1 x2 x3 x4 x5 u0 u1 u2 d : MX) :
  Forall (fun e => occurs i e = false) [x0; x1; x2; x3; x4; x5] ->
  Forall (fun e => occurs i e = false) [u0; u1; u2] ->
  occurs i d = false ->
  fresh_for i (outputs base cfg [x0; x1; x2; x3; x4; x5] [u0; u1; u2] d).
Proof.
  intros HX HU Hd.
  repeat match goal with H : Forall _ (_ :: _) |- _ => apply Forall_cons in H as [? H] end.
  unfold fresh_for, outputs.
  repeat (apply map_Forall_insert_2; [|]); try apply map_Forall_empty;
    repeat constructor;
    cbv [vx vy omega_dot beta_dot v_dot beta_dot_den Fx_fl Fx_fr Fx_rl Fx_rr Fx_f Fx_r
         Fy_fl Fy_fr Fy_rl Fy_rr magic a_fl a_fr a_rl a_rr slip_num_f slip_num_r
         slip_den_fl slip_den_fr slip_den_rl slip_den_rr
         Fz_fl Fz_fr Fz_rl Fz_rr Fz_f Fz_r ax v_sq];
    cbn [occurs];
    repeat match goal with H : occurs i _ = false |- _ => rewrite !H; clear H end;
    reflexivity.
Qed.

(** X16.  When a function is bound to [lateral_load_transfer_] and returns
    the scalar [d] at zero, [forward_dynamics] hands back the outputs of
    [dynamics_] at [gamma_y = d] together with the entry [gamma_y = d]:
    calling with a temporary primitive and substituting it afterwards is the
    same as calling with [d].  If [d] does not mention the temporary
    primitive, nothing returned does. *)
Theorem forward_dynamics_with_bound_function this (in_ : MXDict) (node : nat)
    (x0 x1 x2 x3 x4 x5 u0 u1 u2 d : MX) (rest : list Mat) :
  dynamics_ this = Some (double_track_planar_model (base_config_ this) (config_ this)) ->
  in_ !! "x" = Some [x0; x1; x2; x3; x4; x5] ->
  in_ !! "u" = Some [u0; u1; u2] ->
  map_Forall (fun k _ => k ∈ ["x"; "u"; "gamma_y"]) in_ ->
  fresh_for node in_ ->
  call (lateral_load_transfer_ this) [[Const 0.0]] = Some ([d] :: rest) ->
  let out := <["gamma_y" := [d]]>
               (outputs (base_config_ this) (config_ this)
                  [x0; x1; x2; x3; x4; x5] [u0; u1; u2] d) in
  returned (forward_dynamics this in_ node) = Some out
  /\ (occurs node d = false -> fresh_for node out).
Proof.
  intros Hdyn Hx Hu Hkeys Hfresh Hcall out. split.
  - rewrite forward_dynamics_returned by assumption.
    unfold forward_dynamics_value, dyn_args.
    rewrite decide_True by exact Hkeys. rewrite Hx, Hu, Hcall. reflexivity.
  - intros Hd. apply map_Forall_insert_2; [repeat constructor; exact Hd|].
    apply outputs_fresh; [exact (Hfresh _ _ Hx)|exact (Hfresh _ _ Hu)|exact Hd].
Qed.

Lemma scenario_keys : map_Forall (fun k (_ : Mat) => k ∈ ["x"; "u"; "gamma_y"]) scenario_in.
Proof.
  unfold scenario_in. apply map_Forall_insert_2; [repeat constructor|].
  apply map_Forall_singleton. repeat constructor.
Qed.

Lemma forward_dynamics_with_bound_function_witness :
  let out := <["gamma_y" := [Const 0]]>
               (outputs example_base_config example_config
                  [Const 0; Const 0; Const 0; Const 0.1; Const 0.02; Const 40]
                  [Const 500; Const 0; Const 0.1] (Const 0)) in
  returned (forward_dynamics bound_example_model scenario_in 3) = Some out
  /\ (occurs 3 (Const 0) = false -> fresh_for 3 out).
Proof.
  apply (forward_dynamics_with_bound_function bound_example_model scenario_in 3
           (Const 0) (Const 0) (Const 0) (Const 0.1) (Const 0.02) (Const 40)
           (Const 500) (Const 0) (Const 0.1) (Const 0) []).
  - reflexivity.
  - reflexivity.
  - reflexivity.
  - apply scenario_keys.
  - apply scenario_fresh.
  - reflexivity.
Defined.

(** X17.  A [gamma_y] entry passed in by the caller has no effect: the
    function overwrites it with its own temporary primitive before it calls
    [dynamics_]. *)
Theorem forward_dynamics_ignores_given_gamma_y this (in_ : MXDict) (g : Mat) (node : nat) :
  returned (forward_dynamics this (<["gamma_y" := g]> in_) node)
  = returned (forward_dynamics this in_ node).
Proof.
  unfold forward_dynamics. cbn [MX_sym returned]. now rewrite insert_insert_eq.
Qed.

(** ** The further properties on examples *)

Lemma total_longitudinal_force_witness :
  (eval (fun _ => 0) (Fx_fl example_base_config (Const 500) (Const 0))
   + eval (fun _ => 0) (Fx_fr example_base_config (Const 500) (Const 0))
   + eval (fun _ => 0) (Fx_rl example_base_config (Const 500) (Const 0))
   + eval (fun _ => 0) (Fx_rr example_base_config (Const 500) (Const 0))
   = eval (fun _ => 0) (Const 500) + eval (fun _ => 0) (Const 0)
     - fr (chassis_config example_base_config)
       * total_mass (chassis_config example_base_config) * GRAVITY)%R.
Proof.
  apply (total_longitudinal_force example_base_config (fun _ => 0%R) (Const 500) (Const 0)).
  cbn. lra.
Defined.

Lemma total_vertical_load_witness :
  (eval (fun _ => 0) (Fz_fl example_base_config example_config
                        (Const 40) (Const 500) (Const 0) (Const 100))
   + eval (fun _ => 0) (Fz_fr example_base_config example_config
                          (Const 40) (Const 500) (Const 0) (Const 100))
   + eval (fun _ => 0) (Fz_rl example_base_config example_config
                          (Const 40) (Const 500) (Const 0) (Const 100))
   + eval (fun _ => 0) (Fz_rr example_base_config example_config
                          (Const 40) (Const 500) (Const 0) (Const 100))
   = 2 * (1 - cg_ratio (chassis_config example_base_config))
       * total_mass (chassis_config example_base_config) * GRAVITY
     + 0.5 * (cl_f (aero_config example_base_config)
              + cl_r (aero_config example_base_config))
       * air_density (aero_config example_base_config)
       * frontal_area (aero_config example_base_config)
       * eval (fun _ => 0) (Const 40) ^ 2)%R.
Proof.
  apply (total_vertical_load example_base_config example_config (fun _ => 0%R)
           (Const 40) (Const 500) (Const 0) (Const 100)).
  cbn. lra.
Defined.

Lemma straight_line_equilibrium_witness :
  let env := fun _ : nat => 0%R in
  let base := example_base_config in
  eval env (omega_dot base example_config (Const 0) (Const 0) (Const 20)
              (Const 500) (Const 0) (Const 0) (Const 0)) = 0%R
  /\ eval env (beta_dot base example_config (Const 0) (Const 0) (Const 20)
                 (Const 500) (Const 0) (Const 0) (Const 0)) = 0%R
  /\ (total_mass (chassis_config base)
      * eval env (v_dot base example_config (Const 0) (Const 0) (Const 20)
                    (Const 500) (Const 0) (Const 0) (Const 0))
      = eval env (Const 500) + eval env (Const 0)
        - fr (chassis_config base) * total_mass (chassis_config base) * GRAVITY
        - 0.5 * drag_coeff (aero_config base) * air_density (aero_config base)
          * frontal_area (aero_config base) * eval env (Const 20) ^ 2)%R.
Proof.
  apply (straight_line_equilibrium example_base_config example_config (fun _ => 0%R)
           (Const 0) (Const 0) (Const 20) (Const 500) (Const 0) (Const 0) (Const 0)
           eq_refl eq_refl eq_refl); cbn; lra.
Defined.

Lemma add_nlp_constraints_missing_key_witness :
  add_nlp_constraints no_turn example_model []
    (delete "t" example_stage)
  = None.
Proof.
  apply (add_nlp_constraints_missing_key no_turn example_model [] _ "t").
  - cbn. tauto.
  - reflexivity.
Defined.

Lemma add_nlp_constraints_index_out_of_range_witness :
  add_nlp_constraints no_turn example_model []
    (stage_dict [Sym "x" 0; Sym "x" 1; Sym "x" 2; Sym "x" 3; Sym "x" 4]
       example_u example_gamma_y example_xip1 example_uip1 example_t)
  = None.
Proof.
  apply (add_nlp_constraints_index_out_of_range no_turn example_model []).
  left. exists [Sym "x" 0; Sym "x" 1; Sym "x" 2; Sym "x" 3; Sym "x" 4].
  split; [reflexivity|cbn; lia].
Defined.

Lemma example_stage_added :
  add_nlp_constraints no_turn example_model [] example_stage
  = Some ([] ++ stage_constraints no_turn example_base_config example_config
                  example_x example_u (Sym "gamma_y" 9) example_xip1 example_uip1
                  (Sym "t" 19))%list.
Proof.
  apply (add_nlp_constraints_stage no_turn example_base_config example_config
           (Sym "x" 0) (Sym "x" 1) (Sym "x" 2) (Sym "x" 3) (Sym "x" 4) (Sym "x" 5)
           (Sym "u" 6) (Sym "u" 7) (Sym "u" 8) (Sym "gamma_y" 9)
           (Sym "xip1" 10) (Sym "xip1" 11) (Sym "xip1" 12) (Sym "xip1" 13)
           (Sym "xip1" 14) (Sym "xip1" 15)
           (Sym "uip1" 16) (Sym "uip1" 17) (Sym "uip1" 18) (Sym "t" 19)); reflexivity.
Qed.

Lemma add_nlp_constraints_appends_witness :
  exists added,
    ([] ++ stage_constraints no_turn example_base_config example_config
             example_x example_u (Sym "gamma_y" 9) example_xip1 example_uip1
             (Sym "t" 19))%list
    = ([] ++ added)%list
    /\ length added = 15.
Proof.
  apply (add_nlp_constraints_appends no_turn example_model [] example_stage).
  exact example_stage_added.
Defined.

Lemma coast_front_left_load :
  (mu example_config
   * eval coast_env (el (Fz_ij example_base_config example_config (Sym "x" 5)
                           (Sym "u" 6) (Sym "u" 7) (Sym "gamma_y" 9)) 0) <> 0)%R.
Proof.
  cbn [el nth Fz_ij].
  unfold Fz_fl, Fz_f, ax, v_sq.
  cbn [eval coast_env example_base_config example_config chassis_config
       aero_config total_mass wheel_base cg_ratio cg_height fr cl_f air_density
       frontal_area drag_coeff mu kroll_f pow].
  rewrite ?coast_axle_sum. decimals. lra.
Qed.

Lemma friction_circle_in_forces_witness :
  let Fx := eval coast_env (el (Fx_ij example_base_config (Sym "u" 6) (Sym "u" 7)) 0) in
  let Fy := eval coast_env
              (el (Fy_ij example_base_config example_config (Sym "x" 3) (Sym "x" 4)
                     (Sym "x" 5) (Sym "u" 6) (Sym "u" 7) (Sym "u" 8) (Sym "gamma_y" 9)) 0) in
  let Fz := eval coast_env
              (el (Fz_ij example_base_config example_config (Sym "x" 5)
                     (Sym "u" 6) (Sym "u" 7) (Sym "gamma_y" 9)) 0) in
  (Fx ^ 2 + Fy ^ 2 <= (1 + 1) * (mu example_config * Fz) ^ 2)%R.
Proof.
  apply (friction_circle_in_forces no_turn example_base_config example_config
           (Sym "x" 0) (Sym "x" 1) (Sym "x" 2) (Sym "x" 3) (Sym "x" 4) (Sym "x" 5)
           (Sym "u" 6) (Sym "u" 7) (Sym "u" 8) (Sym "gamma_y" 9)
           (Sym "xip1" 10) (Sym "xip1" 11) (Sym "xip1" 12) (Sym "xip1" 13)
           (Sym "xip1" 14) (Sym "xip1" 15)
           (Sym "uip1" 16) (Sym "uip1" 17) (Sym "uip1" 18) (Sym "t" 19) example_stage
           eq_refl eq_refl eq_refl eq_refl eq_refl eq_refl
           [] _ 1%R coast_env example_stage_added coast_accepted 0).
  - lia.
  - exact coast_front_left_load.
Defined.

Lemma control_increment_bounds_witness :
  let dt := eval coast_env (Sym "t" 19) in
  let steer := steer_config example_base_config in
  (eval coast_env (Sym "uip1" 16) - eval coast_env (Sym "u" 6)
   <= dt * (Fd_max example_config / Td example_config + 1)
   /\ dt * (Fb_max example_config / Tb example_config - 1)
      <= eval coast_env (Sym "uip1" 17) - eval coast_env (Sym "u" 7)
   /\ Rabs (eval coast_env (Sym "uip1" 18) - eval coast_env (Sym "u" 8))
      <= dt * (max_steer_rate steer + 1))%R.
Proof.
  apply (control_increment_bounds no_turn example_base_config example_config
           (Sym "x" 0) (Sym "x" 1) (Sym "x" 2) (Sym "x" 3) (Sym "x" 4) (Sym "x" 5)
           (Sym "u" 6) (Sym "u" 7) (Sym "u" 8) (Sym "gamma_y" 9)
           (Sym "xip1" 10) (Sym "xip1" 11) (Sym "xip1" 12) (Sym "xip1" 13)
           (Sym "xip1" 14) (Sym "xip1" 15)
           (Sym "uip1" 16) (Sym "uip1" 17) (Sym "uip1" 18) (Sym "t" 19) example_stage
           eq_refl eq_refl eq_refl eq_refl eq_refl eq_refl
           [] _ 1%R coast_env example_stage_added coast_accepted);
    cbn; lra.
Defined.
